(** * videoauto: subtitle-driven cutting, resynchronisation, padding and dubbing

    A shallow embedding of the timeline code of the [videoauto] package:

    - [ffmpeg_cut_select.parse_srt_segments] and
      [ffmpeg_cut_trim.parse_srt_segments] (the segment merger),
    - [srt_cut_sync.sync_srt] (the timeline resynchroniser),
    - [srt_padding.pad_srt] (the padding tool),
    - [srt_to_voice.ffmpeg_speedup] and [srt_to_voice.srt_to_voice]
      (the duration-matching synthesiser).

    Conventions.  A [datetime.timedelta] is a whole number of microseconds
    and is modelled as [Z]; its arithmetic is exact in Python too.
    [timedelta.total_seconds()] returns a Python float.  The modules named
    after the source files read it as the exact rational number of seconds
    ([Q]), so their comparisons are the mathematical ones; what is proved
    of them for every cue list holds whichever way a comparison falls, or
    is evaluated where the exact value and the float agree.  Module
    [Binary64] at the end computes the same functions on IEEE binary64
    numbers, as the program does: there the merger's gap test and
    [get_duration_ms] differ from the exact reading on ordinary time
    stamps.  The text of a cue is held as its UTF-8 bytes.  What the SRT
    parser, the speech engine, pydub and ffmpeg return is input to the
    model; [srt.compose], which writes the output files, is outside the
    source and is not modelled: the cue lists below are the lists handed
    to it. *)

From Stdlib Require Import ZArith QArith Qabs Qround Qminmax Lia Lqa Ascii String.
From Stdlib Require Import Permutation Sorted.
From Stdlib Require Import Floats Uint63.
From stdpp Require Import base list.

Local Open Scope Z_scope.

(** ** Time *)

Module Time.

(** [datetime.timedelta], in microseconds. *)
Definition timedelta : Type := Z.

Definition us_per_second : positive := 1000000.

(** [timedelta(seconds=n)] for a whole [n]. *)
Definition of_seconds (n : Z) : timedelta := n * 1000000.

(** [timedelta(milliseconds=n)], the resolution of an SRT timestamp. *)
Definition of_milliseconds (n : Z) : timedelta := n * 1000.

(** [td.total_seconds()], read exactly. *)
Definition total_seconds (td : timedelta) : Q := td # us_per_second.

End Time.
Import Time.

(** Python's [a < b] on two numbers. *)
Definition Qlt_bool (a b : Q) : bool := negb (Qle_bool b a).

(** ** Subtitles *)

(** [srt.Subtitle]: the fields the tools read and write; [content] is the
    text as UTF-8 bytes. *)
Record Subtitle : Type := mkSubtitle {
  index : nat;
  start : timedelta;
  end_ : timedelta;
  content : string
}.

(** A cue of the data model: [start < end], both non-negative. *)
Definition well_formed (x : Subtitle) : Prop := 0 <= start x /\ start x < end_ x.

(** A cue without text from [s] to [e] milliseconds, for the examples. *)
Definition cue (i : nat) (s e : Z) : Subtitle :=
  {| index := i; start := of_milliseconds s; end_ := of_milliseconds e; content := "" |}.

(** ** [subs.sort(key=lambda x: x.start)] *)

(** Python's [list.sort] is stable.  [sort_insert x l] puts [x] in front of
    the first element whose key is not smaller, so [x], which came earlier
    in the input, stays ahead of later elements with an equal key. *)
Fixpoint sort_insert (x : Subtitle) (l : list Subtitle) : list Subtitle :=
  match l with
  | [] => [x]
  | y :: l' => if start y <? start x then y :: sort_insert x l' else x :: y :: l'
  end.

Fixpoint sort_by_start (subs : list Subtitle) : list Subtitle :=
  match subs with
  | [] => []
  | x :: subs' => sort_insert x (sort_by_start subs')
  end.

(** ** Rounding to the nearest integer, ties to even

    Used by [timedelta(seconds=...)] (to the microsecond) and by the
    [.5f] format of the last stretch factor. *)
Definition round_half_even (x : Q) : Z :=
  let f := Qfloor x in
  let r := (x - inject_Z f)%Q in
  if Qlt_bool r (1 # 2) then f
  else if Qlt_bool (1 # 2) r then f + 1
  else if Z.even f then f else f + 1.

(** [timedelta(seconds=s)] for a float [s], read exactly. *)
Definition timedelta_of_seconds (s : Q) : timedelta :=
  round_half_even (s * inject_Z 1000000).

(** ** [str.strip()]

    [str.strip()] removes, at both ends, the characters for which
    [str.isspace()] holds: U+0009 to U+000D, U+001C to U+0020, U+0085,
    U+00A0, U+1680, U+2000 to U+200A, U+2028, U+2029, U+202F, U+205F and
    U+3000.  On the UTF-8 bytes of the text these are the byte strings of
    [whitespace]; none of them can end or start inside another character
    of a well-encoded text. *)

Definition bytes (l : list nat) : string :=
  fold_right (fun n s => String (Ascii.ascii_of_nat n) s) EmptyString l.

Definition whitespace : list string :=
  map bytes
    [ [9]; [10]; [11]; [12]; [13]; [28]; [29]; [30]; [31]; [32];
      [194; 133]; [194; 160];
      [225; 154; 128];
      [226; 128; 128]; [226; 128; 129]; [226; 128; 130]; [226; 128; 131];
      [226; 128; 132]; [226; 128; 133]; [226; 128; 134]; [226; 128; 135];
      [226; 128; 136]; [226; 128; 137]; [226; 128; 138];
      [226; 128; 168]; [226; 128; 169]; [226; 128; 175];
      [226; 129; 159];
      [227; 128; 128] ]%nat.

Definition is_suffix (w s : string) : bool :=
  (String.length w <=? String.length s)%nat &&
  String.eqb
    (String.substring (String.length s - String.length w) (String.length w) s) w.

(** [s.lstrip()]: while [s] starts with a white-space character, drop it.
    A round drops a byte or more, so [len(s)] rounds are enough. *)
Fixpoint lstrip_rounds (n : nat) (s : string) : string :=
  match n with
  | O => s
  | S n' =>
      match List.find (fun w => String.prefix w s) whitespace with
      | Some w =>
          lstrip_rounds n'
            (String.substring (String.length w)
               (String.length s - String.length w) s)
      | None => s
      end
  end.

Definition lstrip (s : string) : string := lstrip_rounds (String.length s) s.

(** [s.rstrip()]: the same at the other end. *)
Fixpoint rstrip_rounds (n : nat) (s : string) : string :=
  match n with
  | O => s
  | S n' =>
      match List.find (fun w => is_suffix w s) whitespace with
      | Some w =>
          rstrip_rounds n'
            (String.substring 0 (String.length s - String.length w) s)
      | None => s
      end
  end.

Definition rstrip (s : string) : string := rstrip_rounds (String.length s) s.

Definition strip (s : string) : string := rstrip (lstrip s).

(** The order the sort establishes. *)
Definition by_start (a b : Subtitle) : Prop := start a <= start b.

(** Cues in start order with no two starting together. *)
Definition strictly_by_start (a b : Subtitle) : Prop := start a < start b.

(** ** The segment merger *)

(** One element of [segments]: the dict [{"start": ..., "end": ...}], in
    seconds.  The two numbers are [total_seconds()] values, read exactly
    here; [Binary64.segment] holds them as the floats they are. *)
Record segment : Type := mkSegment { seg_start : Q; seg_end : Q }.

(** The literal [0.5] of the merge test. *)
Definition MERGE_GAP : Q := 1 # 2.

Definition new_segment (x : Subtitle) : segment :=
  {| seg_start := total_seconds (start x); seg_end := total_seconds (end_ x) |}.

(** [segments[-1]["end"] = v] *)
Definition set_last_end (segments : list segment) (v : Q) : list segment :=
  alter (fun s => {| seg_start := seg_start s; seg_end := v |})
        (length segments - 1)%nat segments.

Module ffmpeg_cut_select.

(** The body of [for x in subs:], with the gap test on exact numbers.  The
    program subtracts two floats; [Binary64.merge_step] is that
    computation, and the two tests differ for some gaps of exactly
    0.5 s. *)
Definition merge_step (segments : list segment) (x : Subtitle) : list segment :=
  match last segments with
  | None => segments ++ [new_segment x]
  | Some cur =>
      if Qlt_bool (total_seconds (start x) - seg_end cur) MERGE_GAP
      then set_last_end segments (total_seconds (end_ x))
      else segments ++ [new_segment x]
  end.

(** [parse_srt_segments], from the parsed subtitles on. *)
Definition parse_srt_segments (subs : list Subtitle) : list segment :=
  fold_left merge_step (sort_by_start subs) [].

End ffmpeg_cut_select.

Module ffmpeg_cut_trim.

(** The same text as in [ffmpeg_cut_select], read the same way. *)
Definition merge_step (segments : list segment) (x : Subtitle) : list segment :=
  match last segments with
  | None => segments ++ [new_segment x]
  | Some cur =>
      if Qlt_bool (total_seconds (start x) - seg_end cur) MERGE_GAP
      then set_last_end segments (total_seconds (end_ x))
      else segments ++ [new_segment x]
  end.

Definition parse_srt_segments (subs : list Subtitle) : list segment :=
  fold_left merge_step (sort_by_start subs) [].

End ffmpeg_cut_trim.

(** A kept interval with [end > start], and one lying wholly before
    another. *)
Definition proper (s : segment) : Prop := (seg_start s < seg_end s)%Q.
Definition before (a b : segment) : Prop := (seg_end a < seg_start b)%Q.

(** The merger's loop seen from its current segment: [cur] is
    [segments[-1]], and the result is [cur] (as the remaining cues leave
    it) followed by the segments they open.  The gap test is the exact one
    of [merge_step]. *)
Fixpoint merge_from (cur : segment) (l : list Subtitle) : list segment :=
  match l with
  | [] => [cur]
  | x :: l' =>
      if Qlt_bool (total_seconds (start x) - seg_end cur) MERGE_GAP
      then merge_from {| seg_start := seg_start cur;
                         seg_end := total_seconds (end_ x) |} l'
      else cur :: merge_from (new_segment x) l'
  end.

(** ** The timeline resynchroniser *)

Module srt_cut_sync.

(** [max(sub.end for sub in subs)] over a non-empty list. *)
Definition max_end (subs : list Subtitle) : timedelta :=
  match subs with
  | [] => 0
  | x :: l => fold_left (fun m y => if m <? end_ y then end_ y else m) l (end_ x)
  end.

(** The loop variables that survive an iteration. *)
Record sync_state : Type := mkState {
  total_shift : timedelta;
  synced : list Subtitle
}.

(** [gap >= max_gap], with [gap = (sub.start - prev.end).total_seconds()]. *)
Definition gap_seconds (prev sub : Subtitle) : Q :=
  total_seconds (start sub - end_ prev).

(** The body of [for i, sub in enumerate(subs):]; [subs] is the sorted
    list, which the loop only reads. *)
Definition sync_step (max_gap : Q) (subs : list Subtitle)
    (st : sync_state) (ix : nat * Subtitle) : sync_state :=
  let '(i, sub) := ix in
  let shift :=
    if (0 <? i)%nat then
      match subs !! (i - 1)%nat with
      | Some prev =>
          let gap := gap_seconds prev sub in
          if Qle_bool max_gap gap
          then total_shift st + timedelta_of_seconds gap
          else total_shift st
      | None => total_shift st
      end
    else total_shift st in
  {| total_shift := shift;
     synced := synced st ++
       [ {| index := i + 1;
            start := start sub - shift;
            end_ := end_ sub - shift;
            content := strip (content sub) |} ] |}.

Definition enumerate (subs : list Subtitle) : list (nat * Subtitle) :=
  zip (seq 0 (length subs)) subs.

(** What one run computes: [out_subs] is [synced], the list handed to
    [srt.compose] (which is outside the source and may drop, reorder and
    renumber cues before they reach the file); the other three are the
    values the run logs. *)
Record sync_result : Type := mkResult {
  out_subs : list Subtitle;
  original_end : timedelta;
  new_end : timedelta;
  saved : Q
}.

(** The state before the loop: [total_shift = subs[0].start]. *)
Definition sync_init (first : Subtitle) : sync_state :=
  {| total_shift := start first; synced := [] |}.

(** [sync_srt], from the parsed subtitles on; [None] is the early
    [return None] on an empty file. *)
Definition sync_srt (subs : list Subtitle) (max_gap : Q) : option sync_result :=
  match sort_by_start subs with
  | [] => None
  | (first :: _) as sorted =>
      let st := fold_left (sync_step max_gap sorted) (enumerate sorted)
                  (sync_init first) in
      let oe := max_end sorted in
      let ne := max_end (synced st) in
      Some {| out_subs := synced st;
              original_end := oe;
              new_end := ne;
              saved := total_seconds (oe - ne) |}
  end.

(** The loop seen from cue [i], with [prev = subs[i-1]] and the shift
    accumulated so far: the cues it appends to [synced]. *)
Fixpoint sync_from (max_gap : Q) (prev : Subtitle) (shift : timedelta)
    (i : nat) (l : list Subtitle) : list Subtitle :=
  match l with
  | [] => []
  | sub :: l' =>
      let gap := gap_seconds prev sub in
      let shift' :=
        if Qle_bool max_gap gap then shift + timedelta_of_seconds gap else shift in
      {| index := i + 1; start := start sub - shift'; end_ := end_ sub - shift';
         content := strip (content sub) |}
      :: sync_from max_gap sub shift' (S i) l'
  end.

End srt_cut_sync.

(** Cue ends that never go back along the list. *)
Definition by_end (a b : Subtitle) : Prop := end_ a <= end_ b.

(** ** The padding tool *)

Module srt_padding.

(** [timedelta(hours=1)] *)
Definition one_hour : timedelta := of_seconds 3600.

(** The body of [for i, sub in enumerate(subs):].  The loop assigns to the
    fields of [subs[i]], so [subs] is the list as the earlier iterations
    left it: [subs[i-1].end] is already padded, [subs[i+1].start] is not
    yet. *)
Definition pad_step (pad : timedelta) (n : nat)
    (subs : list Subtitle) (i : nat) : list Subtitle :=
  match subs !! i with
  | None => subs
  | Some sub =>
      let prev_end :=
        if (0 <? i)%nat
        then match subs !! (i - 1)%nat with Some p => end_ p | None => 0 end
        else 0 in
      let new_start := Z.max (Z.max 0 (start sub - pad)) prev_end in
      let next_start :=
        if (i <? n - 1)%nat
        then match subs !! (i + 1)%nat with
             | Some nx => start nx
             | None => end_ sub + one_hour
             end
        else end_ sub + one_hour in
      let new_end := Z.min (end_ sub + pad) next_start in
      <[ i := {| index := index sub; start := new_start; end_ := new_end;
                 content := content sub |} ]> subs
  end.

(** [pad_srt], from the parsed subtitles to the list handed to
    [srt.compose]. *)
Definition pad_srt (subs : list Subtitle) (pad : Q) : list Subtitle :=
  let n := length subs in
  fold_left (pad_step (timedelta_of_seconds pad) n) (seq 0 n) subs.

(** The loop seen from one cue: [prev_end] is the end the previous
    iteration wrote (or 0 before the first cue), the later cues are still
    as parsed. *)
Fixpoint pad_from (pad : timedelta) (prev_end : timedelta) (l : list Subtitle)
  : list Subtitle :=
  match l with
  | [] => []
  | sub :: rest =>
      let new_start := Z.max (Z.max 0 (start sub - pad)) prev_end in
      let next_start :=
        match rest with
        | nx :: _ => start nx
        | [] => end_ sub + one_hour
        end in
      let new_end := Z.min (end_ sub + pad) next_start in
      {| index := index sub; start := new_start; end_ := new_end;
         content := content sub |}
      :: pad_from pad new_end rest
  end.

End srt_padding.

(** ** The duration-matching synthesiser *)

Module srt_to_voice.

(** What a call can come to: a value, Python's [ZeroDivisionError], or a
    loop that is still running when the fuel is spent. *)
Inductive outcome (A : Type) : Type :=
| Done (a : A)
| ZeroDivisionError
| OutOfFuel.
Arguments Done {A} a.
Arguments ZeroDivisionError {A}.
Arguments OutOfFuel {A}.

#[export] Instance outcome_bind : MBind outcome := fun A B k m =>
  match m with
  | Done a => k a
  | ZeroDivisionError => ZeroDivisionError
  | OutOfFuel => OutOfFuel
  end.

(** *** pydub, at millisecond resolution

    An [AudioSegment] is the list of its milliseconds, each either
    audible ([true]: above the silence threshold) or not; [len(seg)] is
    the length of the list. *)
Definition AudioSegment : Type := list bool.

Definition len (seg : AudioSegment) : Z := Z.of_nat (length seg).

(** [AudioSegment.silent(duration=d)] *)
Definition silent (d : Z) : AudioSegment := replicate (Z.to_nat d) false.

(** [seg[a:b]] for [a, b >= 0]: both ends are clamped to [len(seg)]. *)
Definition slice (seg : AudioSegment) (a b : Z) : AudioSegment :=
  let a' := Z.min a (len seg) in
  let b' := Z.min b (len seg) in
  take (Z.to_nat (b' - a')) (drop (Z.to_nat a') seg).

(** [silence.detect_leading_silence(sound, chunk_size=10)]: step over
    whole quiet chunks, stop at the first chunk with sound in it or at the
    end, and never report more than [len(sound)]. *)
Fixpoint leading_chunks (fuel : nat) (sound : AudioSegment) (trim_ms : Z) : Z :=
  match fuel with
  | O => trim_ms
  | S fuel' =>
      if forallb negb (slice sound trim_ms (trim_ms + 10)) && (trim_ms <? len sound)
      then leading_chunks fuel' sound (trim_ms + 10)
      else trim_ms
  end.

Definition detect_leading_silence (sound : AudioSegment) : Z :=
  Z.min (leading_chunks (S (length sound)) sound 0) (len sound).

(** [trim_silence] *)
Definition trim_silence (audio : AudioSegment) : AudioSegment :=
  let start_trim := detect_leading_silence audio in
  let end_trim := detect_leading_silence (rev audio) in
  let duration := len audio in
  slice audio start_trim (duration - end_trim).

(** [int(x)]: truncation towards zero. *)
Definition int_of (x : Q) : Z := Z.quot (Qnum x) (Zpos (Qden x)).

(** [get_duration_ms], with [td.total_seconds() * 1000] read exactly: the
    truncation of the milliseconds.  The program's float product can fall
    short of a whole number of milliseconds, and [int] then gives one
    millisecond less ([Binary64.get_duration_ms]). *)
Definition get_duration_ms (td : timedelta) : Z :=
  int_of (total_seconds td * inject_Z 1000).

(** *** [ffmpeg_speedup]: the chain of [atempo] stages *)

(** [while remain > 2.0: atempo_filters.append("atempo=2.0"); remain /= 2.0] *)
Fixpoint halving (fuel : nat) (remain : Q) (filters : list Q) : option (Q * list Q) :=
  match fuel with
  | O => None
  | S fuel' =>
      if Qlt_bool 2 remain
      then halving fuel' (remain / 2) (filters ++ [2%Q])
      else Some (remain, filters)
  end.

(** [while remain < 0.5: atempo_filters.append("atempo=0.5"); remain /= 0.5] *)
Fixpoint doubling (fuel : nat) (remain : Q) (filters : list Q) : option (Q * list Q) :=
  match fuel with
  | O => None
  | S fuel' =>
      if Qlt_bool remain (1 # 2)
      then doubling fuel' (remain / (1 # 2)) (filters ++ [(1 # 2)%Q])
      else Some (remain, filters)
  end.

(** The two loops: the stages appended so far and what remains. *)
Definition decompose (fuel : nat) (speed : Q) : option (Q * list Q) :=
  match halving fuel speed [] with
  | None => None
  | Some (remain, filters) => doubling fuel remain filters
  end.

(** The value printed by [f"{remain:.5f}"]. *)
Definition format_5f (x : Q) : Q := round_half_even (x * inject_Z 100000) # 100000.

(** The stage factors as computed: the last one is [remain] itself. *)
Definition stages (fuel : nat) (speed : Q) : option (list Q) :=
  match decompose fuel speed with
  | None => None
  | Some (remain, filters) => Some (filters ++ [remain])
  end.

(** The factors of [filter_str], as ffmpeg reads them. *)
Definition atempo_filters (fuel : nat) (speed : Q) : option (list Q) :=
  match decompose fuel speed with
  | None => None
  | Some (remain, filters) => Some (filters ++ [format_5f remain])
  end.

Definition product (l : list Q) : Q := fold_right Qmult 1%Q l.

(** The range of one [atempo] stage. *)
Definition in_range (q : Q) : Prop := (1 # 2 <= q <= 2)%Q.

(** What the two loops leave for the ratio [r]: [k] stages of [a] and then
    [remain].  [a] is 2.0 above the range and 0.5 below it; with [n] units
    of fuel or more both loops have run to their end; the stages multiply
    to [r] and lie in the range, also with the last one printed to five
    decimals, which moves the product by at most one part in 100000. *)
Definition decomposed (r : Q) (n k : nat) (a remain : Q) : Prop :=
  ((2 < r)%Q -> a = 2%Q /\ (0 < k)%nat) /\
  ((r < 1 # 2)%Q -> a = (1 # 2)%Q /\ (0 < k)%nat) /\
  (in_range r -> k = 0%nat /\ remain = r) /\
  (forall fuel, (n <= fuel)%nat ->
     stages fuel r = Some (replicate k a ++ [remain]) /\
     atempo_filters fuel r = Some (replicate k a ++ [format_5f remain])) /\
  (product (replicate k a ++ [remain]) == r)%Q /\
  Forall in_range (replicate k a ++ [remain]) /\
  Forall in_range (replicate k a ++ [format_5f remain]) /\
  (Qabs (product (replicate k a ++ [format_5f remain]) - r) <= r * (1 # 100000))%Q.

Section Synthesiser.

(** The speech engine: the buffer [synthesize(text, voice)] returns. *)
Variable synthesize : string -> AudioSegment.

(** The stretcher: the buffer read back after ffmpeg has run the filter
    chain over the input. *)
Variable ffmpeg : AudioSegment -> list Q -> AudioSegment.

Definition ffmpeg_speedup (fuel : nat) (audio : AudioSegment) (speed : Q)
  : outcome AudioSegment :=
  match atempo_filters fuel speed with
  | None => OutOfFuel
  | Some filters => Done (ffmpeg audio filters)
  end.

(** [len(seg) / target_len], the exact quotient; the program rounds it to
    binary64 ([Binary64.true_div]). *)
Definition true_div (a b : Z) : outcome Q :=
  if b =? 0 then ZeroDivisionError else Done (inject_Z a / inject_Z b)%Q.

(** Step 3 of the loop body: stretch or pad [seg] to [target_len]. *)
Definition fit (fuel : nat) (seg : AudioSegment) (target_len : Z)
  : outcome AudioSegment :=
  if target_len <? len seg then
    let seg1 := trim_silence seg in
    speed ← true_div (len seg1) target_len;
    seg2 ← ffmpeg_speedup fuel seg1 speed;
    Done (slice seg2 0 target_len)
  else
    Done (seg ++ silent (target_len - len seg)).

(** [sub.content.replace("\n", " ")] *)
Fixpoint replace_newlines (s : string) : string :=
  match s with
  | EmptyString => EmptyString
  | String c s' =>
      String (if Ascii.eqb c "010"%char then " "%char else c) (replace_newlines s')
  end.

(** The loop variables. *)
Record voice_state : Type := mkVoice {
  audio_segments : list AudioSegment;
  last_end : timedelta
}.

(** The body of [for idx, sub in enumerate(subs, 1):]. *)
Definition voice_step (fuel : nat) (st : voice_state) (sub : Subtitle)
  : outcome voice_state :=
  let segs1 :=
    if last_end st <? start sub
    then audio_segments st ++ [silent (get_duration_ms (start sub - last_end st))]
    else audio_segments st in
  let text := replace_newlines (content sub) in
  let seg := synthesize text in
  let target_len := get_duration_ms (end_ sub - start sub) in
  seg' ← fit fuel seg target_len;
  Done {| audio_segments := segs1 ++ [seg']; last_end := end_ sub |}.

Fixpoint voice_loop (fuel : nat) (st : voice_state) (subs : list Subtitle)
  : outcome voice_state :=
  match subs with
  | [] => Done st
  | sub :: subs' => st' ← voice_step fuel st sub; voice_loop fuel st' subs'
  end.

(** [srt_to_voice], from the parsed subtitles to [final_audio]. *)
Definition srt_to_voice (fuel : nat) (subs : list Subtitle) : outcome AudioSegment :=
  st ← voice_loop fuel {| audio_segments := []; last_end := of_seconds 0 |} subs;
  Done (fold_left (fun acc seg => acc ++ seg) (audio_segments st) (silent 0)).

End Synthesiser.

(** Cues in time order that do not overlap: each starts at or after
    [from], the end of the one before, and ends at or after its start. *)
Fixpoint consecutive (from : timedelta) (subs : list Subtitle) : Prop :=
  match subs with
  | [] => True
  | sub :: subs' =>
      from <= start sub /\ start sub <= end_ sub /\ consecutive (end_ sub) subs'
  end.

End srt_to_voice.


(** ** The same functions on binary64 numbers

    Python floats are IEEE binary64, and so are Rocq's primitive floats.
    This module computes what the program computes: [total_seconds()] is
    the quotient rounded once, the merger subtracts two such quotients
    (the resynchroniser rounds the quotient of the exact difference), and
    [get_duration_ms] truncates a rounded product.  A [timedelta] and a
    length in milliseconds are converted exactly for magnitudes below
    [2^53], which is every time stamp an SRT file can hold. *)

Module Binary64.

Definition float_of_Z (z : Z) : float :=
  if z <? 0 then PrimFloat.opp (PrimFloat.of_uint63 (Uint63.of_Z (- z)))
  else PrimFloat.of_uint63 (Uint63.of_Z z).

(** The exact value of a finite float (0 stands for an infinity or a NaN,
    which a quotient or product of the numbers above never is). *)
Definition to_Q (f : float) : Q :=
  match Prim2SF f with
  | S754_finite s m e =>
      let v := if 0 <=? e then inject_Z (Zpos m * 2 ^ e)
               else Zpos m # Z.to_pos (2 ^ (- e)) in
      if s then Qopp v else v
  | _ => 0%Q
  end.

(** [td.total_seconds()]: the microseconds over [10**6], rounded once. *)
Definition total_seconds (td : timedelta) : float :=
  PrimFloat.div (float_of_Z td) 1000000%float.

(** *** The segment merger *)

Record segment : Type := mkSegment { seg_start : float; seg_end : float }.

Definition new_segment (x : Subtitle) : segment :=
  {| seg_start := total_seconds (start x); seg_end := total_seconds (end_ x) |}.

(** [segments[-1]["end"] = v] *)
Definition set_last_end (segments : list segment) (v : float) : list segment :=
  alter (fun s => {| seg_start := seg_start s; seg_end := v |})
        (length segments - 1)%nat segments.

(** [x.start.total_seconds() - segments[-1]["end"] < 0.5] *)
Definition gap_below_half (x : Subtitle) (cur : segment) : bool :=
  PrimFloat.ltb (PrimFloat.sub (total_seconds (start x)) (seg_end cur)) 0.5%float.

(** The body of [for x in subs:], the same text in both cutters. *)
Definition merge_step (segments : list segment) (x : Subtitle) : list segment :=
  match last segments with
  | None => segments ++ [new_segment x]
  | Some cur =>
      if gap_below_half x cur
      then set_last_end segments (total_seconds (end_ x))
      else segments ++ [new_segment x]
  end.

(** [parse_srt_segments], from the parsed subtitles on. *)
Definition parse_srt_segments (subs : list Subtitle) : list segment :=
  fold_left merge_step (sort_by_start subs) [].

(** *** The resynchroniser's test *)

(** [(sub.start - prev.end).total_seconds() >= max_gap] *)
Definition sync_shifts (max_gap : float) (prev sub : Subtitle) : bool :=
  PrimFloat.leb max_gap (total_seconds (start sub - end_ prev)).

(** *** The synthesiser *)

(** [int(td.total_seconds() * 1000)] *)
Definition get_duration_ms (td : timedelta) : Z :=
  srt_to_voice.int_of (to_Q (PrimFloat.mul (total_seconds td) 1000%float)).

(** [len(seg) / target_len]: the quotient of two integers, rounded once. *)
Definition true_div (a b : Z) : srt_to_voice.outcome Q :=
  if b =? 0 then srt_to_voice.ZeroDivisionError
  else srt_to_voice.Done (to_Q (PrimFloat.div (float_of_Z a) (float_of_Z b))).

Section Synthesiser.

Variable synthesize : string -> srt_to_voice.AudioSegment.
Variable ffmpeg : srt_to_voice.AudioSegment -> list Q -> srt_to_voice.AudioSegment.

(** Step 3 of the loop body.  The two loops of [ffmpeg_speedup] divide by
    2.0 and by 0.5, which is exact on floats, so they are the loops of
    [srt_to_voice.ffmpeg_speedup] run on the float's value. *)
Definition fit (fuel : nat) (seg : srt_to_voice.AudioSegment) (target_len : Z)
  : srt_to_voice.outcome srt_to_voice.AudioSegment :=
  if target_len <? srt_to_voice.len seg then
    let seg1 := srt_to_voice.trim_silence seg in
    match true_div (srt_to_voice.len seg1) target_len with
    | srt_to_voice.Done speed =>
        match srt_to_voice.ffmpeg_speedup ffmpeg fuel seg1 speed with
        | srt_to_voice.Done seg2 =>
            srt_to_voice.Done (srt_to_voice.slice seg2 0 target_len)
        | srt_to_voice.ZeroDivisionError => srt_to_voice.ZeroDivisionError
        | srt_to_voice.OutOfFuel => srt_to_voice.OutOfFuel
        end
    | srt_to_voice.ZeroDivisionError => srt_to_voice.ZeroDivisionError
    | srt_to_voice.OutOfFuel => srt_to_voice.OutOfFuel
    end
  else
    srt_to_voice.Done
      (seg ++ srt_to_voice.silent (target_len - srt_to_voice.len seg)).

(** The body of [for idx, sub in enumerate(subs, 1):]. *)
Definition voice_step (fuel : nat) (st : srt_to_voice.voice_state) (sub : Subtitle)
  : srt_to_voice.outcome srt_to_voice.voice_state :=
  let segs1 :=
    if srt_to_voice.last_end st <? start sub
    then srt_to_voice.audio_segments st ++
         [srt_to_voice.silent (get_duration_ms (start sub - srt_to_voice.last_end st))]
    else srt_to_voice.audio_segments st in
  let text := srt_to_voice.replace_newlines (content sub) in
  let seg := synthesize text in
  let target_len := get_duration_ms (end_ sub - start sub) in
  match fit fuel seg target_len with
  | srt_to_voice.Done seg' =>
      srt_to_voice.Done
        {| srt_to_voice.audio_segments := segs1 ++ [seg'];
           srt_to_voice.last_end := end_ sub |}
  | srt_to_voice.ZeroDivisionError => srt_to_voice.ZeroDivisionError
  | srt_to_voice.OutOfFuel => srt_to_voice.OutOfFuel
  end.

Fixpoint voice_loop (fuel : nat) (st : srt_to_voice.voice_state)
    (subs : list Subtitle) : srt_to_voice.outcome srt_to_voice.voice_state :=
  match subs with
  | [] => srt_to_voice.Done st
  | sub :: subs' =>
      match voice_step fuel st sub with
      | srt_to_voice.Done st' => voice_loop fuel st' subs'
      | srt_to_voice.ZeroDivisionError => srt_to_voice.ZeroDivisionError
      | srt_to_voice.OutOfFuel => srt_to_voice.OutOfFuel
      end
  end.

(** [srt_to_voice], from the parsed subtitles to [final_audio]. *)
Definition srt_to_voice (fuel : nat) (subs : list Subtitle)
  : srt_to_voice.outcome srt_to_voice.AudioSegment :=
  match voice_loop fuel
          {| srt_to_voice.audio_segments := [];
             srt_to_voice.last_end := of_seconds 0 |} subs with
  | srt_to_voice.Done st =>
      srt_to_voice.Done
        (fold_left (fun acc seg => acc ++ seg)
           (srt_to_voice.audio_segments st) (srt_to_voice.silent 0))
  | srt_to_voice.ZeroDivisionError => srt_to_voice.ZeroDivisionError
  | srt_to_voice.OutOfFuel => srt_to_voice.OutOfFuel
  end.

End Synthesiser.

End Binary64.

(** * Further definitions *)

(** ** Shapes of cue lists *)

(** No cue ends before it starts. *)
Definition forward (x : Subtitle) : Prop := start x <= end_ x.

(** ** The resynchroniser's output *)

(** The gap left between two output cues whose input cues are [p] and
    [x]: none when the input gap reaches the threshold, the input gap
    otherwise. *)
Definition closed_gap (G : Q) (p x : Subtitle) : timedelta :=
  if Qle_bool G (srt_cut_sync.gap_seconds p x) then 0 else start x - end_ p.

(** ** Kept intervals against cues *)

(** The interval [s] covers the cue [x]. *)
Definition covers (s : segment) (x : Subtitle) : Prop :=
  (seg_start s <= total_seconds (start x))%Q /\
  (total_seconds (end_ x) <= seg_end s)%Q.

(** ** The [select] expression of [ffmpeg_cut_select.cut_video] *)

(** ffmpeg's [between(t, lo, hi)]: 1 when [lo <= t <= hi], else 0. *)
Definition between (t lo hi : Q) : Z :=
  if Qle_bool lo t && Qle_bool t hi then 1 else 0.

(** ["+".join(f"between(t,{seg['start']},{seg['end']})" for seg in segments)],
    evaluated at the time stamp [t]. *)
Definition select_expr (segments : list segment) (t : Q) : Z :=
  fold_right (fun seg acc => between t (seg_start seg) (seg_end seg) + acc) 0 segments.

(** [select] and [aselect] pass a frame when the expression is not zero. *)
Definition selected (segments : list segment) (t : Q) : bool :=
  negb (select_expr segments t =? 0).

(** The time stamp [t] lies in the interval, ends included. *)
Definition within (t : Q) (s : segment) : Prop :=
  (seg_start s <= t)%Q /\ (t <= seg_end s)%Q.

(** ** [main] of the padding tool: where the output is written *)

(** [s.replace(old, new)] for a non-empty [old]: from left to right, each
    occurrence is replaced and the search goes on after it.  [skip] counts
    the characters of the occurrence just replaced that are still to be
    passed over. *)
Fixpoint replace_from (old new : string) (skip : nat) (s : string) : string :=
  match s with
  | EmptyString => EmptyString
  | String c s' =>
      match skip with
      | S k => replace_from old new k s'
      | O =>
          if String.prefix old s
          then String.append new (replace_from old new (String.length old - 1) s')
          else String c (replace_from old new 0 s')
      end
  end.

Definition str_replace (s old new : string) : string := replace_from old new 0 s.

(** The path [pad_srt] writes to, from the command line: [srt] is the
    input path, [output] the value of [-o] if given, [inplace] the flag.
    [args.output or ...] takes the default also for an empty [-o]. *)
Definition main_output (srt : string) (output : option string) (inplace : bool)
  : string :=
  if inplace then srt
  else match output with
       | Some (String c o) => String c o
       | _ => str_replace srt ".srt" "_pad.srt"
       end.

(** [old in s] *)
Definition occurs (old s : string) : Prop :=
  exists a b, s = String.append a (String.append old b).

(** The two time stamps of a cue, all the merger reads of it. *)
Definition times (x : Subtitle) : timedelta * timedelta := (start x, end_ x).

(** * Properties *)

(** ** Time and comparisons *)

Lemma total_seconds_lt (a b : timedelta) :
  (total_seconds a < total_seconds b)%Q <-> a < b.
Proof. unfold total_seconds, us_per_second, Qlt; simpl. lia. Qed.

Lemma total_seconds_le (a b : timedelta) :
  (total_seconds a <= total_seconds b)%Q <-> a <= b.
Proof. unfold total_seconds, us_per_second, Qle; simpl. lia. Qed.

Lemma total_seconds_sub (a b : timedelta) :
  (total_seconds a - total_seconds b == total_seconds (a - b)%Z)%Q.
Proof. unfold total_seconds, us_per_second, Qeq, Qminus, Qplus, Qopp; simpl. lia. Qed.

Lemma total_seconds_add (a b : timedelta) :
  (total_seconds a + total_seconds b == total_seconds (a + b)%Z)%Q.
Proof. unfold total_seconds, us_per_second, Qeq, Qplus; simpl. lia. Qed.

Lemma total_seconds_0 : (total_seconds 0%Z == 0)%Q.
Proof. reflexivity. Qed.

Lemma Qlt_bool_iff (a b : Q) : Qlt_bool a b = true <-> (a < b)%Q.
Proof.
  unfold Qlt_bool. rewrite negb_true_iff, <- not_true_iff_false, Qle_bool_iff.
  split; [apply Qnot_le_lt | apply Qlt_not_le].
Qed.

Example scenario_segments :
  ffmpeg_cut_select.parse_srt_segments
    [cue 1 0 2000; cue 2 2300 4000; cue 3 10000 12000]
  = [ {| seg_start := 0 # 1000000; seg_end := 4000000 # 1000000 |};
      {| seg_start := 10000000 # 1000000; seg_end := 12000000 # 1000000 |} ].
Proof. reflexivity. Qed.

Example scenario_resync :
  option_map (fun r => map (fun x => (start x, end_ x)) (srt_cut_sync.out_subs r))
    (srt_cut_sync.sync_srt
       [cue 1 0 2000; cue 2 2300 4000; cue 3 10000 12000] (1 # 2))
  = Some [ (0, 2000000); (2300000, 4000000); (4000000, 6000000) ].
Proof. vm_compute. reflexivity. Qed.

Example pad_example :
  map (fun x => (start x, end_ x))
    (srt_padding.pad_srt [cue 1 50 1000; cue 2 1100 2000; cue 3 2500 3000] (1 # 10))
  = [ (0, 1100000); (1100000, 2100000); (2400000, 3100000) ].
Proof. vm_compute. reflexivity. Qed.

Example stages_5 : srt_to_voice.stages 10 5 = Some [2; 2; 5 # 4]%Q.
Proof. vm_compute. reflexivity. Qed.

(** ** The sort *)

Lemma sort_insert_perm x l : Permutation (x :: l) (sort_insert x l).
Proof.
  induction l as [|y l IH]; simpl; [reflexivity|].
  destruct (start y <? start x); [|reflexivity].
  rewrite perm_swap. now constructor.
Qed.

Lemma sort_by_start_perm l : Permutation l (sort_by_start l).
Proof.
  induction l as [|x l IH]; simpl; [constructor|].
  rewrite <- sort_insert_perm. now constructor.
Qed.

Lemma sort_insert_sorted x l :
  StronglySorted by_start l -> StronglySorted by_start (sort_insert x l).
Proof.
  induction l as [|y l IH]; simpl; intros Hs.
  - repeat constructor.
  - apply StronglySorted_inv in Hs as [Hl Hy].
    destruct (start y <? start x) eqn:E.
    + apply Z.ltb_lt in E. constructor; [auto|].
      rewrite <- sort_insert_perm. constructor; [unfold by_start; lia | exact Hy].
    + apply Z.ltb_ge in E. constructor; [now constructor|].
      constructor; [exact E|].
      eapply Forall_impl; [exact Hy|]. unfold by_start. simpl. intros; lia.
Qed.

Lemma sort_by_start_sorted l : StronglySorted by_start (sort_by_start l).
Proof.
  induction l as [|x l IH]; simpl; [constructor | now apply sort_insert_sorted].
Qed.

Lemma sort_by_start_Forall (P : Subtitle -> Prop) l :
  Forall P l -> Forall P (sort_by_start l).
Proof. intros H. now rewrite <- sort_by_start_perm. Qed.

(** A list that is already in order is left as it is. *)
Lemma sort_by_start_sorted_id l :
  StronglySorted by_start l -> sort_by_start l = l.
Proof.
  induction l as [|x l IH]; simpl; [reflexivity|]; intros Hs.
  apply StronglySorted_inv in Hs as [Hl Hx]. rewrite (IH Hl).
  destruct l as [|y l]; [reflexivity|]. simpl.
  apply Forall_inv in Hx. unfold by_start in Hx.
  destruct (start y <? start x) eqn:E; [apply Z.ltb_lt in E; lia | reflexivity].
Qed.

(** The sort is stable: the cues with a given start keep their input
    order. *)
Lemma sort_insert_stable (k : Z) x l :
  filter (fun y => start y = k) (sort_insert x l)
  = filter (fun y => start y = k) (x :: l).
Proof.
  induction l as [|y l IH]; simpl; [reflexivity|].
  destruct (start y <? start x) eqn:E; [|reflexivity].
  apply Z.ltb_lt in E.
  rewrite (filter_cons _ y (sort_insert x l)), IH.
  rewrite !filter_cons.
  destruct (decide (start y = k)), (decide (start x = k)); try reflexivity.
  lia.
Qed.

Lemma sort_by_start_stable (k : Z) l :
  filter (fun y => start y = k) (sort_by_start l)
  = filter (fun y => start y = k) l.
Proof.
  induction l as [|x l IH]; simpl; [reflexivity|].
  rewrite sort_insert_stable, !filter_cons, IH. reflexivity.
Qed.

(** ** The merger *)

Lemma set_last_end_snoc init cur v :
  set_last_end (init ++ [cur]) v
  = init ++ [ {| seg_start := seg_start cur; seg_end := v |} ].
Proof.
  unfold set_last_end. rewrite length_app. simpl.
  replace (length init + 1 - 1)%nat with (length init + 0)%nat by lia.
  now rewrite alter_app_r.
Qed.

Lemma fold_merge_step l : forall init cur,
  fold_left ffmpeg_cut_select.merge_step l (init ++ [cur]) = init ++ merge_from cur l.
Proof.
  induction l as [|x l IH]; intros init cur; simpl; [reflexivity|].
  unfold ffmpeg_cut_select.merge_step at 2. rewrite last_snoc.
  destruct (Qlt_bool _ _).
  - rewrite set_last_end_snoc. apply IH.
  - rewrite IH. now rewrite <- app_assoc.
Qed.

Lemma parse_srt_segments_eq subs :
  ffmpeg_cut_select.parse_srt_segments subs
  = match sort_by_start subs with
    | [] => []
    | x :: l => merge_from (new_segment x) l
    end.
Proof.
  unfold ffmpeg_cut_select.parse_srt_segments.
  destruct (sort_by_start subs) as [|x l]; [reflexivity|].
  simpl. apply (fold_merge_step l [] (new_segment x)).
Qed.

(** The two cutters carry the same merger. *)
Lemma parse_srt_segments_same subs :
  ffmpeg_cut_trim.parse_srt_segments subs = ffmpeg_cut_select.parse_srt_segments subs.
Proof. reflexivity. Qed.

Lemma StronglySorted_lookup {A} (R : A -> A -> Prop) (l : list A) :
  StronglySorted R l ->
  forall i j a b, (i < j)%nat -> l !! i = Some a -> l !! j = Some b -> R a b.
Proof.
  induction 1 as [|x l Hs IH Hx]; intros i j a b Hij Ha Hb.
  - now rewrite lookup_nil in Ha.
  - destruct j as [|j]; [lia|]. simpl in Hb. destruct i as [|i]; simpl in Ha.
    + injection Ha as <-. rewrite Forall_forall in Hx. apply Hx.
      eapply list_elem_of_lookup_2; eauto.
    + apply (IH i j); auto. lia.
Qed.

Lemma merge_test_false cur x :
  Qlt_bool (total_seconds (start x) - seg_end cur) MERGE_GAP = false <->
  (1 # 2 <= total_seconds (start x) - seg_end cur)%Q.
Proof.
  rewrite <- not_true_iff_false, Qlt_bool_iff. unfold MERGE_GAP.
  split; [apply Qnot_lt_le | apply Qle_not_lt].
Qed.

Lemma merge_from_ordered l : forall cur,
  proper cur ->
  Forall well_formed l ->
  StronglySorted by_start l ->
  Forall (fun x => (seg_start cur <= total_seconds (start x))%Q) l ->
  StronglySorted before (merge_from cur l) /\
  Forall proper (merge_from cur l) /\
  Forall (fun s => (seg_start cur <= seg_start s)%Q) (merge_from cur l).
Proof.
  induction l as [|x l IH]; intros cur Hcur Hwf Hs Hlo; simpl.
  - repeat split; repeat constructor; auto. lra.
  - apply Forall_cons in Hwf as [[_ Hx] Hwf].
    apply StronglySorted_inv in Hs as [Hs Hxl].
    apply Forall_cons in Hlo as [Hlox Hlo].
    apply total_seconds_lt in Hx.
    destruct (Qlt_bool _ _) eqn:E.
    + destruct (IH {| seg_start := seg_start cur;
                      seg_end := total_seconds (end_ x) |})
        as (S1 & S2 & S3); auto.
      unfold proper in *; simpl. lra.
    + apply merge_test_false in E.
      assert (Hnew : Forall (fun y =>
                (seg_start (new_segment x) <= total_seconds (start y))%Q) l).
      { eapply Forall_impl; [exact Hxl|]. unfold by_start; simpl.
        intros y Hy. now apply total_seconds_le. }
      destruct (IH (new_segment x) Hx Hwf Hs Hnew) as (S1 & S2 & S3).
      simpl in S3. repeat split.
      * constructor; [exact S1|].
        eapply Forall_impl; [exact S3|]. unfold before. simpl. intros s Hs'. lra.
      * constructor; [exact Hcur | exact S2].
      * constructor; [lra|].
        eapply Forall_impl; [exact S3|]. simpl. intros s Hs'. lra.
Qed.

(** C7: on well-formed cues the kept intervals are proper ([end > start]),
    pairwise disjoint (an earlier one ends before a later one starts) and
    strictly increasing by start. *)
Theorem kept_intervals_disjoint_increasing (subs : list Subtitle) :
  Forall well_formed subs ->
  let segments := ffmpeg_cut_select.parse_srt_segments subs in
  Forall proper segments /\
  (forall i j a b, (i < j)%nat ->
     segments !! i = Some a -> segments !! j = Some b ->
     before a b /\ (seg_start a < seg_start b)%Q).
Proof.
  intros Hwf segments. subst segments. rewrite parse_srt_segments_eq.
  pose proof (sort_by_start_sorted subs) as Hs.
  apply sort_by_start_Forall in Hwf.
  destruct (sort_by_start subs) as [|x l].
  - split; [constructor|]. intros i j a b _ Ha. now rewrite lookup_nil in Ha.
  - apply Forall_cons in Hwf as [[_ Hx] Hwf].
    apply StronglySorted_inv in Hs as [Hs Hxl].
    apply total_seconds_lt in Hx.
    assert (Hnew : Forall (fun y =>
              (seg_start (new_segment x) <= total_seconds (start y))%Q) l).
    { eapply Forall_impl; [exact Hxl|]. unfold by_start; simpl.
      intros y Hy. now apply total_seconds_le. }
    destruct (merge_from_ordered l (new_segment x) Hx Hwf Hs Hnew) as (S1 & S2 & _).
    split; [exact S2|]. intros i j a b Hij Ha Hb.
    pose proof (StronglySorted_lookup before _ S1 i j a b Hij Ha Hb) as Hab.
    split; [exact Hab|].
    assert (Hp : proper a).
    { rewrite Forall_forall in S2. apply S2.
      eapply list_elem_of_lookup_2; eauto. }
    unfold before, proper in *. lra.
Qed.

(** The scenario of the specification: three well-formed cues. *)
Lemma kept_intervals_witness :
  let subs := [cue 1 0 2000; cue 2 2300 4000; cue 3 10000 12000] in
  let segments := ffmpeg_cut_select.parse_srt_segments subs in
  Forall proper segments /\
  (forall i j a b, (i < j)%nat ->
     segments !! i = Some a -> segments !! j = Some b ->
     before a b /\ (seg_start a < seg_start b)%Q).
Proof.
  apply (kept_intervals_disjoint_increasing
           [cue 1 0 2000; cue 2 2300 4000; cue 3 10000 12000]).
  repeat constructor; vm_compute; congruence.
Defined.

(** C2: the cues 0-5 s and 1-2 s are well formed and in start order; the
    second is merged into the first (its start lies before the current
    end), and the kept interval then ends at 2 s, the end of the cue
    merged last, not at the larger end 5 s. *)
Theorem merge_takes_last_end_not_max :
  let subs := [cue 1 0 5000; cue 2 1000 2000] in
  Forall well_formed subs /\
  sort_by_start subs = subs /\
  ffmpeg_cut_select.parse_srt_segments subs
    = [ {| seg_start := total_seconds 0; seg_end := total_seconds 2000000 |} ] /\
  ffmpeg_cut_trim.parse_srt_segments subs
    = [ {| seg_start := total_seconds 0; seg_end := total_seconds 2000000 |} ] /\
  (total_seconds 2000000%Z
   < Qmax (total_seconds (end_ (cue 1 0 5000))) (total_seconds (end_ (cue 2 1000 2000))))%Q.
Proof.
  repeat split; try reflexivity.
  repeat constructor; vm_compute; congruence.
Qed.

(** C8: the same two well-formed cues in two orders.  They start together,
    the stable sort keeps each input order, and the merged interval takes
    the end of whichever cue comes last: 1 s for one order, 5 s for the
    other. *)
Theorem merge_depends_on_input_order :
  let a := [cue 1 0 5000; cue 2 0 1000] in
  let b := [cue 2 0 1000; cue 1 0 5000] in
  Permutation a b /\
  Forall well_formed a /\
  ffmpeg_cut_select.parse_srt_segments a
    = [ {| seg_start := total_seconds 0; seg_end := total_seconds 1000000 |} ] /\
  ffmpeg_cut_select.parse_srt_segments b
    = [ {| seg_start := total_seconds 0; seg_end := total_seconds 5000000 |} ] /\
  ffmpeg_cut_trim.parse_srt_segments a <> ffmpeg_cut_trim.parse_srt_segments b.
Proof.
  repeat split; try reflexivity.
  - apply perm_swap.
  - repeat constructor; vm_compute; congruence.
  - vm_compute. congruence.
Qed.

(** Where the order dependence comes from: cues that start together.
    When all starts differ the sorted list, and with it the merger's
    output, is the same for every input order. *)
Lemma strictly_sorted_perm_eq (l1 : list Subtitle) : forall l2,
  StronglySorted strictly_by_start l1 ->
  StronglySorted strictly_by_start l2 ->
  Permutation l1 l2 -> l1 = l2.
Proof.
  induction l1 as [|x l1 IH]; intros l2 H1 H2 Hp.
  - now apply Permutation_nil in Hp.
  - destruct l2 as [|y l2]; [now apply Permutation_sym, Permutation_nil in Hp|].
    apply StronglySorted_inv in H1 as [H1 Hx].
    apply StronglySorted_inv in H2 as [H2 Hy].
    rewrite Forall_forall in Hx, Hy.
    assert (Hxy : x = y).
    { assert (Hin1 : x ∈ y :: l2) by (rewrite <- Hp; left).
      assert (Hin2 : y ∈ x :: l1) by (rewrite Hp; left).
      apply elem_of_cons in Hin1 as [E|Hin1]; [exact E|].
      apply elem_of_cons in Hin2 as [E|Hin2]; [now symmetry|].
      specialize (Hx _ Hin2). specialize (Hy _ Hin1).
      unfold strictly_by_start in *. lia. }
    subst y. f_equal. apply IH; auto.
    now apply Permutation_cons_inv in Hp.
Qed.

Lemma sorted_distinct_strict (l : list Subtitle) :
  StronglySorted by_start l -> NoDup (map start l) ->
  StronglySorted strictly_by_start l.
Proof.
  induction 1 as [|x l Hs IH Hx]; intros Hnd; [constructor|].
  simpl in Hnd. apply NoDup_cons in Hnd as [Hnotin Hnd].
  constructor; [now apply IH|].
  rewrite Forall_forall in Hx |- *. intros y Hy.
  specialize (Hx y Hy). unfold by_start, strictly_by_start in *.
  assert (start y <> start x).
  { intros E. apply Hnotin. rewrite <- E. now apply list_elem_of_fmap_2. }
  lia.
Qed.

Lemma merge_order_invariant_distinct_starts (a b : list Subtitle) :
  Permutation a b -> NoDup (map start a) ->
  ffmpeg_cut_select.parse_srt_segments a = ffmpeg_cut_select.parse_srt_segments b.
Proof.
  intros Hp Hnd. unfold ffmpeg_cut_select.parse_srt_segments.
  assert (E : sort_by_start a = sort_by_start b); [|now rewrite E].
  apply strictly_sorted_perm_eq.
  - apply sorted_distinct_strict; [apply sort_by_start_sorted|].
    now rewrite <- (sort_by_start_perm a).
  - apply sorted_distinct_strict; [apply sort_by_start_sorted|].
    now rewrite <- (sort_by_start_perm b), <- Hp.
  - now rewrite <- (sort_by_start_perm a), <- (sort_by_start_perm b).
Qed.

Lemma merge_from_nonempty l : forall cur, merge_from cur l <> [].
Proof.
  induction l as [|x l IH]; intros cur; simpl; [congruence|].
  destruct (Qlt_bool _ _); [apply IH | congruence].
Qed.

Lemma sort_insert_nonempty x l : sort_insert x l <> [].
Proof. destruct l as [|y l]; simpl; [|destruct (_ <? _)]; congruence. Qed.

(** C9, as stated, fails: a cue that ends before it starts (5 s to 1 s),
    and one with a negative start, are not rejected; each comes back as a
    kept interval. *)
Lemma malformed_cue_is_kept :
  let backwards := cue 1 5000 1000 in
  let negative := cue 1 (-2000) 1000 in
  ~ well_formed backwards /\
  ~ well_formed negative /\
  ffmpeg_cut_select.parse_srt_segments [backwards]
    = [ {| seg_start := total_seconds 5000000; seg_end := total_seconds 1000000 |} ] /\
  ffmpeg_cut_trim.parse_srt_segments [backwards]
    = [ {| seg_start := total_seconds 5000000; seg_end := total_seconds 1000000 |} ] /\
  ffmpeg_cut_select.parse_srt_segments [negative]
    = [ {| seg_start := total_seconds (-2000000); seg_end := total_seconds 1000000 |} ].
Proof.
  repeat split; try reflexivity; unfold well_formed; vm_compute; intros [H1 H2]; congruence.
Qed.

(** C9, amended: the merger validates nothing.  Whatever the cues are, a
    non-empty list gives a non-empty list of kept intervals, and a single
    cue gives back its own [start, end] pair, in either cutter. *)
Theorem segmentation_never_rejects (x : Subtitle) (subs : list Subtitle) :
  ffmpeg_cut_select.parse_srt_segments (x :: subs) <> [] /\
  ffmpeg_cut_trim.parse_srt_segments (x :: subs) <> [] /\
  ffmpeg_cut_select.parse_srt_segments [x] = [new_segment x] /\
  ffmpeg_cut_trim.parse_srt_segments [x] = [new_segment x].
Proof.
  assert (H : ffmpeg_cut_select.parse_srt_segments (x :: subs) <> []).
  { rewrite parse_srt_segments_eq. simpl.
    pose proof (sort_insert_nonempty x (sort_by_start subs)) as Hne.
    destruct (sort_insert x (sort_by_start subs)); [congruence|].
    apply merge_from_nonempty. }
  repeat split; auto.
Qed.

(** ** The resynchroniser *)

(** [timedelta(seconds=td.total_seconds())] is [td] again. *)
Lemma timedelta_of_total_seconds (td : timedelta) :
  timedelta_of_seconds (total_seconds td) = td.
Proof.
  unfold timedelta_of_seconds, round_half_even, total_seconds, us_per_second.
  assert (Hf : Qfloor ((td # 1000000) * inject_Z 1000000) = td).
  { unfold Qfloor, Qmult, inject_Z. simpl Qnum. simpl Qden.
    change (Z.pos (1000000 * 1)) with 1000000. apply Z.div_mul. lia. }
  rewrite Hf.
  assert (Hr : Qlt_bool ((td # 1000000) * inject_Z 1000000 - inject_Z td) (1 # 2) = true).
  { apply Qlt_bool_iff.
    assert ((td # 1000000) * inject_Z 1000000 - inject_Z td == 0)%Q as ->; [|reflexivity].
    unfold Qeq, Qminus, Qplus, Qmult, Qopp, inject_Z. simpl. lia. }
  now rewrite Hr.
Qed.

Lemma gap_seconds_sub p x :
  (srt_cut_sync.gap_seconds p x == total_seconds (start x) - total_seconds (end_ p))%Q.
Proof. unfold srt_cut_sync.gap_seconds. now rewrite total_seconds_sub. Qed.

(** *** The cue list of the resynchroniser *)

Lemma fold_left_cons {A B} (f : A -> B -> A) (b : B) (l : list B) (a : A) :
  fold_left f (b :: l) a = fold_left f l (f a b).
Proof. reflexivity. Qed.

Lemma sync_fold (G : Q) (sorted : list Subtitle) (l : list Subtitle) :
  forall done prev st,
  sorted = done ++ l ->
  last done = Some prev ->
  srt_cut_sync.synced
    (fold_left (srt_cut_sync.sync_step G sorted)
       (zip (seq (length done) (length l)) l) st)
  = srt_cut_sync.synced st
    ++ srt_cut_sync.sync_from G prev (srt_cut_sync.total_shift st) (length done) l.
Proof.
  induction l as [|x l IH]; intros done prev st Hs Hl.
  - simpl. now rewrite app_nil_r.
  - assert (Hk : (0 < length done)%nat).
    { destruct done; [discriminate|simpl; lia]. }
    assert (Hprev : sorted !! (length done - 1)%nat = Some prev).
    { rewrite Hs, lookup_app_l by lia. rewrite last_lookup in Hl.
      now replace (length done - 1)%nat with (pred (length done)) by lia. }
    change (zip (seq (length done) (length (x :: l))) (x :: l))
      with ((length done, x) :: zip (seq (S (length done)) (length l)) l).
    change (fold_left ?f ?l ?a) with (fold_left f l a).
    rewrite fold_left_cons.
    set (st' := srt_cut_sync.sync_step G sorted st (length done, x)).
    specialize (IH (done ++ [x]) x st').
    rewrite length_app in IH. change (length [x]) with 1%nat in IH.
    rewrite Nat.add_1_r in IH.
    rewrite IH; [|now rewrite <- app_assoc | apply last_snoc].
    subst st'. unfold srt_cut_sync.sync_step.
    apply Nat.ltb_lt in Hk. rewrite Hk, Hprev. simpl.
    now rewrite <- app_assoc.
Qed.

Lemma sync_srt_eq (G : Q) (subs : list Subtitle) :
  srt_cut_sync.sync_srt subs G
  = match sort_by_start subs with
    | [] => None
    | first :: l =>
        let out :=
          {| index := 1; start := start first - start first;
             end_ := end_ first - start first;
             content := strip (content first) |}
          :: srt_cut_sync.sync_from G first (start first) 1 l in
        Some {| srt_cut_sync.out_subs := out;
                srt_cut_sync.original_end := srt_cut_sync.max_end (first :: l);
                srt_cut_sync.new_end := srt_cut_sync.max_end out;
                srt_cut_sync.saved :=
                  total_seconds (srt_cut_sync.max_end (first :: l)
                                 - srt_cut_sync.max_end out) |}
    end.
Proof.
  unfold srt_cut_sync.sync_srt.
  destruct (sort_by_start subs) as [|first l]; [reflexivity|].
  cbv zeta.
  assert (H : srt_cut_sync.synced
            (fold_left (srt_cut_sync.sync_step G (first :: l))
               (srt_cut_sync.enumerate (first :: l))
               (srt_cut_sync.sync_init first))
          = {| index := 1; start := start first - start first;
               end_ := end_ first - start first;
               content := strip (content first) |}
            :: srt_cut_sync.sync_from G first (start first) 1 l).
  { unfold srt_cut_sync.enumerate. simpl.
    rewrite (sync_fold G (first :: l) l [first] first); reflexivity. }
  now rewrite H.
Qed.

(** *** The saving it reports *)

Example scenario_saved :
  option_map srt_cut_sync.saved
    (srt_cut_sync.sync_srt [cue 1 0 2000; cue 2 2300 4000; cue 3 10000 12000] (1 # 2))
  = Some (total_seconds 6000000).
Proof. vm_compute. reflexivity. Qed.

(** ** The padding tool *)

Lemma pad_fold (pad : timedelta) (n : nat) (l : list Subtitle) :
  forall done prev_end,
  n = (length done + length l)%nat ->
  prev_end = match last done with Some p => end_ p | None => 0 end ->
  fold_left (srt_padding.pad_step pad n) (seq (length done) (length l)) (done ++ l)
  = done ++ srt_padding.pad_from pad prev_end l.
Proof.
  induction l as [|x l IH]; intros done prev_end Hn Hprev.
  - reflexivity.
  - change (seq (length done) (length (x :: l)))
      with (length done :: seq (S (length done)) (length l)).
    rewrite fold_left_cons.
    set (x' := {| index := index x;
                  start := Z.max (Z.max 0 (start x - pad)) prev_end;
                  end_ := Z.min (end_ x + pad)
                            match l with
                            | nx :: _ => start nx
                            | [] => end_ x + srt_padding.one_hour
                            end;
                  content := content x |}).
    assert (Hstep : srt_padding.pad_step pad n (done ++ x :: l) (length done)
                    = (done ++ [x']) ++ l).
    { unfold srt_padding.pad_step.
      rewrite list_lookup_middle by reflexivity.
      assert (Hpe : (if (0 <? length done)%nat
                     then match (done ++ x :: l) !! (length done - 1)%nat with
                          | Some p => end_ p
                          | None => 0
                          end
                     else 0) = prev_end).
      { rewrite Hprev, last_lookup.
        destruct done as [|d done]; [reflexivity|].
        change (0 <? length (d :: done))%nat with true. cbv iota.
        rewrite lookup_app_l by (simpl; lia).
        now replace (length (d :: done) - 1)%nat with (pred (length (d :: done)))
          by (simpl; lia). }
      rewrite Hpe.
      assert (Hnx : (if (length done <? n - 1)%nat
                     then match (done ++ x :: l) !! (length done + 1)%nat with
                          | Some nx => start nx
                          | None => end_ x + srt_padding.one_hour
                          end
                     else end_ x + srt_padding.one_hour)
                    = match l with
                      | nx :: _ => start nx
                      | [] => end_ x + srt_padding.one_hour
                      end).
      { destruct l as [|nx l].
        - simpl in Hn. destruct (length done <? n - 1)%nat eqn:E; [|reflexivity].
          apply Nat.ltb_lt in E. lia.
        - simpl in Hn.
          assert (E : (length done <? n - 1)%nat = true) by (apply Nat.ltb_lt; lia).
          rewrite E. rewrite lookup_app_r by lia.
          now replace (length done + 1 - length done)%nat with 1%nat by lia. }
      rewrite Hnx.
      rewrite insert_app_r_alt by lia. rewrite Nat.sub_diag. simpl.
      now rewrite <- app_assoc. }
    rewrite Hstep.
    specialize (IH (done ++ [x']) (end_ x')).
    rewrite length_app in IH. change (length [x']) with 1%nat in IH.
    rewrite Nat.add_1_r in IH.
    rewrite IH.
    + now rewrite <- app_assoc.
    + simpl in Hn. lia.
    + now rewrite last_snoc.
Qed.

Lemma pad_srt_eq (subs : list Subtitle) (pad : Q) :
  srt_padding.pad_srt subs pad
  = srt_padding.pad_from (timedelta_of_seconds pad) 0 subs.
Proof.
  unfold srt_padding.pad_srt.
  apply (pad_fold (timedelta_of_seconds pad) (length subs) subs [] 0); reflexivity.
Qed.

Lemma pad_from_start_nonneg (pad : timedelta) (l : list Subtitle) :
  forall prev_end i x,
  srt_padding.pad_from pad prev_end l !! i = Some x -> 0 <= start x.
Proof.
  induction l as [|s l IH]; intros prev_end i x Hx.
  - destruct i; discriminate.
  - cbn [srt_padding.pad_from] in Hx. destruct i as [|i]; simpl in Hx.
    + injection Hx as <-. simpl. lia.
    + eapply IH. exact Hx.
Qed.

Lemma pad_from_head (pad : timedelta) (l : list Subtitle) prev_end x :
  srt_padding.pad_from pad prev_end l !! 0%nat = Some x -> prev_end <= start x.
Proof.
  destruct l as [|s l]; intros Hx.
  - discriminate.
  - cbn [srt_padding.pad_from] in Hx. simpl in Hx. injection Hx as <-. simpl. lia.
Qed.

Lemma pad_from_adjacent (pad : timedelta) (l : list Subtitle) :
  forall prev_end i p x,
  srt_padding.pad_from pad prev_end l !! i = Some p ->
  srt_padding.pad_from pad prev_end l !! S i = Some x ->
  end_ p <= start x.
Proof.
  induction l as [|s l IH]; intros prev_end i p x Hp Hx.
  - destruct i; discriminate.
  - cbn [srt_padding.pad_from] in Hp, Hx. destruct i as [|i]; simpl in Hp, Hx.
    + injection Hp as <-. apply pad_from_head in Hx. exact Hx.
    + eapply IH; eauto.
Qed.

Lemma pad_from_next (pad : timedelta) (l : list Subtitle) :
  forall prev_end i x nx,
  srt_padding.pad_from pad prev_end l !! i = Some x ->
  l !! S i = Some nx ->
  end_ x <= start nx.
Proof.
  induction l as [|s l IH]; intros prev_end i x nx Hx Hnx.
  - destruct i; discriminate.
  - cbn [srt_padding.pad_from] in Hx. destruct i as [|i]; simpl in Hx, Hnx.
    + injection Hx as <-. destruct l as [|t l]; [discriminate|].
      simpl in Hnx. injection Hnx as <-. simpl. lia.
    + eapply IH; eauto.
Qed.

(** C10: whatever the subtitles and the pad, no output cue starts before
    zero, every output cue starts no earlier than the (padded) end of the
    output cue before it, and every output cue but the last ends no later
    than the original start of the next cue. *)
Theorem padding_keeps_order (subs : list Subtitle) (pad : Q) :
  let out := srt_padding.pad_srt subs pad in
  length out = length subs /\
  (forall i x, out !! i = Some x -> 0 <= start x) /\
  (forall i p x, out !! i = Some p -> out !! S i = Some x -> end_ p <= start x) /\
  (forall i x nx, out !! i = Some x -> subs !! S i = Some nx -> end_ x <= start nx).
Proof.
  cbv zeta. rewrite pad_srt_eq. repeat split.
  - generalize 0. induction subs as [|s l IH]; intros pe; simpl; [reflexivity|].
    now rewrite IH.
  - apply pad_from_start_nonneg.
  - apply pad_from_adjacent.
  - apply pad_from_next.
Qed.

(** ** The stretch stages *)

Lemma product_app l1 l2 :
  (srt_to_voice.product (l1 ++ l2)
   == srt_to_voice.product l1 * srt_to_voice.product l2)%Q.
Proof.
  induction l1 as [|a l1 IH]; simpl.
  - ring.
  - rewrite IH. ring.
Qed.

Lemma product_snoc l a :
  (srt_to_voice.product (l ++ [a]) == srt_to_voice.product l * a)%Q.
Proof. rewrite product_app. simpl. ring. Qed.

Lemma product_replicate_pos k (a : Q) :
  (0 < a)%Q -> (0 < srt_to_voice.product (replicate k a))%Q.
Proof.
  intros Ha. induction k as [|k IH]; simpl; [reflexivity|].
  apply Qmult_lt_0_compat; assumption.
Qed.


(** The first loop: with [remain] at most [2 * 2^n] it stops within [n]
    rounds. *)
Lemma halving_spec (n : nat) : forall remain filters,
  (remain <= 2 * inject_Z (2 ^ Z.of_nat n))%Q ->
  exists k remain',
    (k <= n)%nat /\
    (forall fuel, (k < fuel)%nat ->
       srt_to_voice.halving fuel remain filters
       = Some (remain', filters ++ replicate k 2%Q)) /\
    (remain' * srt_to_voice.product (replicate k 2) == remain)%Q /\
    (remain' <= 2)%Q /\
    ((0 < k)%nat -> (1 < remain')%Q) /\
    (k = 0%nat -> remain' = remain /\ (remain <= 2)%Q) /\
    ((2 < remain)%Q -> (0 < k)%nat).
Proof.
  induction n as [|n IH]; intros remain filters Hb.
  - exists 0%nat, remain.
    change (inject_Z (2 ^ Z.of_nat 0)) with 1%Q in Hb.
    assert (Hle : (remain <= 2)%Q) by lra.
    repeat split; try lia; try lra; auto.
    + intros [|fuel] Hf; [lia|]. simpl.
      assert (E : Qlt_bool 2 remain = false).
      { apply not_true_iff_false. rewrite Qlt_bool_iff. lra. }
      now rewrite E, app_nil_r.
    + simpl. ring.
  - destruct (Qlt_le_dec 2 remain) as [Hgt|Hle].
    + assert (Hb' : (remain / 2 <= 2 * inject_Z (2 ^ Z.of_nat n))%Q).
      { rewrite Nat2Z.inj_succ, Z.pow_succ_r in Hb by lia.
        rewrite inject_Z_mult in Hb. unfold Qdiv.
        change (/ 2)%Q with (1 # 2)%Q. change (inject_Z 2) with 2%Q in Hb. lra. }
      destruct (IH (remain / 2)%Q (filters ++ [2%Q]) Hb')
        as (k & r' & Hk & Hrun & Hprod & Hr2 & Hr1 & Hk0 & _).
      exists (S k), r'. repeat split; try lia; auto.
      * intros [|fuel] Hf; [lia|]. simpl.
        assert (E : Qlt_bool 2 remain = true) by (now apply Qlt_bool_iff).
        rewrite E, Hrun by lia. now rewrite <- app_assoc.
      * simpl. rewrite (Qmult_comm 2), Qmult_assoc, Hprod. field.
      * intros _. destruct k as [|k].
        -- destruct (Hk0 eq_refl) as [-> _]. unfold Qdiv.
           change (/ 2)%Q with (1 # 2)%Q. lra.
        -- apply Hr1. lia.
    + exists 0%nat, remain. repeat split; try lia; try lra; auto.
      * intros [|fuel] Hf; [lia|]. simpl.
        assert (E : Qlt_bool 2 remain = false).
        { apply not_true_iff_false. rewrite Qlt_bool_iff. lra. }
        now rewrite E, app_nil_r.
      * simpl. ring.
Qed.

(** The second loop: with [remain * 2^n] at least one half it stops within
    [n] rounds. *)
Lemma doubling_spec (n : nat) : forall remain filters,
  (1 # 2 <= remain * inject_Z (2 ^ Z.of_nat n))%Q ->
  exists k remain',
    (k <= n)%nat /\
    (forall fuel, (k < fuel)%nat ->
       srt_to_voice.doubling fuel remain filters
       = Some (remain', filters ++ replicate k (1 # 2)%Q)) /\
    (remain' * srt_to_voice.product (replicate k (1 # 2)) == remain)%Q /\
    (1 # 2 <= remain')%Q /\
    ((0 < k)%nat -> (remain' < 1)%Q) /\
    (k = 0%nat -> remain' = remain) /\
    ((remain < 1 # 2)%Q -> (0 < k)%nat).
Proof.
  induction n as [|n IH]; intros remain filters Hb.
  - exists 0%nat, remain.
    change (inject_Z (2 ^ Z.of_nat 0)) with 1%Q in Hb.
    assert (Hle : (1 # 2 <= remain)%Q) by lra.
    repeat split; try lia; try lra; auto.
    + intros [|fuel] Hf; [lia|]. simpl.
      assert (E : Qlt_bool remain (1 # 2) = false).
      { apply not_true_iff_false. rewrite Qlt_bool_iff. lra. }
      now rewrite E, app_nil_r.
    + simpl. ring.
  - destruct (Qlt_le_dec remain (1 # 2)) as [Hlt|Hle].
    + assert (Hdiv : (remain / (1 # 2) == 2 * remain)%Q) by (field).
      assert (Hb' : (1 # 2 <= remain / (1 # 2) * inject_Z (2 ^ Z.of_nat n))%Q).
      { rewrite Nat2Z.inj_succ, Z.pow_succ_r in Hb by lia.
        rewrite inject_Z_mult in Hb. change (inject_Z 2) with 2%Q in Hb.
        rewrite Hdiv. lra. }
      destruct (IH (remain / (1 # 2))%Q (filters ++ [(1 # 2)%Q]) Hb')
        as (k & r' & Hk & Hrun & Hprod & Hr2 & Hr1 & Hk0 & _).
      exists (S k), r'. repeat split; try lia; auto.
      * intros [|fuel] Hf; [lia|]. simpl.
        assert (E : Qlt_bool remain (1 # 2) = true) by (now apply Qlt_bool_iff).
        rewrite E, Hrun by lia. now rewrite <- app_assoc.
      * simpl. rewrite (Qmult_comm (1 # 2)), Qmult_assoc, Hprod. field.
      * intros _. destruct k as [|k].
        -- rewrite (Hk0 eq_refl), Hdiv. lra.
        -- apply Hr1. lia.
    + exists 0%nat, remain. repeat split; try lia; try lra; auto.
      * intros [|fuel] Hf; [lia|]. simpl.
        assert (E : Qlt_bool remain (1 # 2) = false).
        { apply not_true_iff_false. rewrite Qlt_bool_iff. lra. }
        now rewrite E, app_nil_r.
      * simpl. ring.
Qed.

Lemma halving_bound (r : Q) :
  (0 < r)%Q -> (r <= 2 * inject_Z (2 ^ Z.of_nat (Z.to_nat (Qnum r))))%Q.
Proof.
  destruct r as [a b]. unfold Qlt. simpl. intros Ha.
  rewrite Z2Nat.id by lia.
  pose proof (Z.pow_gt_lin_r 2 a) as Hp.
  unfold Qle, Qmult, inject_Z. simpl. nia.
Qed.

Lemma doubling_bound (r : Q) :
  (0 < r)%Q -> (1 # 2 <= r * inject_Z (2 ^ Z.of_nat (Pos.to_nat (Qden r))))%Q.
Proof.
  destruct r as [a b]. unfold Qlt. simpl. intros Ha.
  rewrite positive_nat_Z.
  pose proof (Z.pow_gt_lin_r 2 (Z.pos b)) as Hp.
  unfold Qle, Qmult, inject_Z. simpl. nia.
Qed.

(** *** Rounding *)

Lemma round_half_even_close (y : Q) :
  (Qabs (inject_Z (round_half_even y) - y) <= 1 # 2)%Q.
Proof.
  unfold round_half_even.
  pose proof (Qfloor_le y) as Hlo. pose proof (Qlt_floor y) as Hhi.
  rewrite inject_Z_plus in Hhi. change (inject_Z 1) with 1%Q in Hhi.
  apply Qabs_Qle_condition.
  destruct (Qlt_bool (y - inject_Z (Qfloor y)) (1 # 2)) eqn:E1.
  - apply Qlt_bool_iff in E1. lra.
  - apply not_true_iff_false in E1. rewrite Qlt_bool_iff in E1.
    apply Qnot_lt_le in E1.
    assert (Hup : (- (1 # 2) <= inject_Z (Qfloor y + 1) - y <= 1 # 2)%Q).
    { rewrite inject_Z_plus. change (inject_Z 1) with 1%Q. lra. }
    destruct (Qlt_bool (1 # 2) (y - inject_Z (Qfloor y))) eqn:E2; [exact Hup|].
    apply not_true_iff_false in E2. rewrite Qlt_bool_iff in E2.
    apply Qnot_lt_le in E2.
    destruct (Z.even (Qfloor y)); [lra | exact Hup].
Qed.

Lemma round_half_even_between (y : Q) (a b : Z) :
  (inject_Z a <= y <= inject_Z b)%Q -> a <= round_half_even y <= b.
Proof.
  intros [Ha Hb]. unfold round_half_even.
  pose proof (Qfloor_le y) as Hlo.
  assert (Hfa : a <= Qfloor y).
  { rewrite <- (Qfloor_Z a). now apply Qfloor_resp_le. }
  assert (Hfb : Qfloor y <= b).
  { rewrite <- (Qfloor_Z b). now apply Qfloor_resp_le. }
  assert (Hup : (0 < y - inject_Z (Qfloor y))%Q -> Qfloor y + 1 <= b).
  { intros Hr. assert (Hlt : (inject_Z (Qfloor y) < inject_Z b)%Q) by lra.
    rewrite <- Zlt_Qlt in Hlt. lia. }
  destruct (Qlt_bool (y - inject_Z (Qfloor y)) (1 # 2)) eqn:E1; [lia|].
  apply not_true_iff_false in E1. rewrite Qlt_bool_iff in E1.
  apply Qnot_lt_le in E1.
  assert (Hb1 : Qfloor y + 1 <= b) by (apply Hup; lra).
  destruct (Qlt_bool (1 # 2) (y - inject_Z (Qfloor y))); [lia|].
  destruct (Z.even (Qfloor y)); lia.
Qed.

Lemma format_5f_close (x : Q) :
  (Qabs (srt_to_voice.format_5f x - x) <= 1 # 200000)%Q.
Proof.
  pose proof (round_half_even_close (x * inject_Z 100000)) as H.
  apply Qabs_Qle_condition in H. apply Qabs_Qle_condition.
  unfold srt_to_voice.format_5f.
  set (z := round_half_even (x * inject_Z 100000)) in *.
  assert (E : (z # 100000 == inject_Z z * (1 # 100000))%Q).
  { unfold Qeq, Qmult, inject_Z. simpl. lia. }
  rewrite E. change (inject_Z 100000) with 100000%Q in H. lra.
Qed.

Lemma format_5f_in_range (x : Q) :
  srt_to_voice.in_range x -> srt_to_voice.in_range (srt_to_voice.format_5f x).
Proof.
  unfold srt_to_voice.in_range. intros [Hlo Hhi].
  destruct (round_half_even_between (x * inject_Z 100000) 50000 200000) as [Ha Hb].
  { change (inject_Z 100000) with 100000%Q.
    change (inject_Z 50000) with 50000%Q. change (inject_Z 200000) with 200000%Q.
    lra. }
  unfold srt_to_voice.format_5f.
  set (z := round_half_even (x * inject_Z 100000)) in *.
  unfold Qle. simpl. lia.
Qed.

Lemma Forall_in_range_replicate k (a : Q) :
  srt_to_voice.in_range a -> Forall srt_to_voice.in_range (replicate k a).
Proof. intros Ha. induction k; simpl; constructor; auto. Qed.

(** The formatted chain is off by at most one part in 100000. *)
Lemma formatted_product_close (chain : list Q) (remain r : Q) :
  (0 < srt_to_voice.product chain)%Q ->
  (srt_to_voice.product chain * remain == r)%Q ->
  (1 # 2 <= remain)%Q ->
  (Qabs (srt_to_voice.product (chain ++ [srt_to_voice.format_5f remain]) - r)
   <= r * (1 # 100000))%Q.
Proof.
  intros HP Hr Hrem.
  pose proof (format_5f_close remain) as Hd.
  apply Qabs_Qle_condition in Hd. apply Qabs_Qle_condition.
  rewrite product_snoc.
  set (P := srt_to_voice.product chain) in *.
  set (f := srt_to_voice.format_5f remain) in *.
  assert (E : (P * f - r == P * (f - remain))%Q) by (rewrite <- Hr; ring).
  rewrite E.
  assert (HP2 : (P * (1 # 200000) <= r * (1 # 100000))%Q).
  { rewrite <- Hr. nra. }
  assert (H1 : (P * (f - remain) <= P * (1 # 200000))%Q).
  { apply Qmult_le_l; [exact HP|]. lra. }
  assert (H2 : (P * - (1 # 200000) <= P * (f - remain))%Q).
  { apply Qmult_le_l; [exact HP|]. lra. }
  split; lra.
Qed.

(** The two loops together. *)
Lemma decompose_spec (r : Q) :
  (0 < r)%Q ->
  exists (n k : nat) (a remain : Q),
    srt_to_voice.in_range a /\
    (0 < a)%Q /\
    ((2 < r)%Q -> a = 2%Q /\ (0 < k)%nat) /\
    ((r < 1 # 2)%Q -> a = (1 # 2)%Q /\ (0 < k)%nat) /\
    (srt_to_voice.in_range r -> k = 0%nat /\ remain = r) /\
    (forall fuel, (n <= fuel)%nat ->
       srt_to_voice.decompose fuel r = Some (remain, replicate k a)) /\
    (remain * srt_to_voice.product (replicate k a) == r)%Q /\
    srt_to_voice.in_range remain.
Proof.
  intros Hr.
  destruct (Qlt_le_dec 2 r) as [Hgt|Hle2].
  - (* above 2.0: halve, then the second loop has nothing to do *)
    destruct (halving_spec _ r [] (halving_bound r Hr))
      as (k & r' & _ & Hrun & Hprod & Hr2 & Hr1 & _ & Hk).
    specialize (Hk Hgt). specialize (Hr1 Hk).
    destruct (doubling_spec 0 r' (replicate k 2%Q))
      as (k2 & r'' & Hk2 & Hrun2 & _ & _ & _ & Hk0 & _).
    { change (inject_Z (2 ^ Z.of_nat 0)) with 1%Q. lra. }
    assert (k2 = 0%nat) as -> by lia. rewrite (Hk0 eq_refl) in Hrun2.
    exists (S k), k, 2%Q, r'.
    split; [unfold srt_to_voice.in_range; lra|]. split; [reflexivity|].
    split; [intros _; split; [reflexivity | exact Hk]|].
    split; [intros Hc; lra|].
    split; [unfold srt_to_voice.in_range; intros [_ Hc]; lra|].
    split; [|split; [exact Hprod | unfold srt_to_voice.in_range; lra]].
    intros fuel Hf. unfold srt_to_voice.decompose.
    rewrite Hrun by lia. simpl app. rewrite Hrun2 by lia.
    simpl. now rewrite app_nil_r.
  - destruct (halving_spec 0 r []) as (k & r' & Hk & Hrun & _ & _ & _ & Hk0 & _).
    { change (inject_Z (2 ^ Z.of_nat 0)) with 1%Q. lra. }
    assert (k = 0%nat) as -> by lia. destruct (Hk0 eq_refl) as [-> _].
    destruct (Qlt_le_dec r (1 # 2)) as [Hlt|Hge].
    + (* below 0.5: double *)
      destruct (doubling_spec _ r [] (doubling_bound r Hr))
        as (k2 & r'' & _ & Hrun2 & Hprod2 & Hlo & Hhi & _ & Hpos).
      specialize (Hpos Hlt). specialize (Hhi Hpos).
      exists (S k2), k2, (1 # 2)%Q, r''.
      split; [unfold srt_to_voice.in_range; lra|]. split; [reflexivity|].
      split; [intros Hc; lra|].
      split; [intros _; split; [reflexivity | exact Hpos]|].
      split; [unfold srt_to_voice.in_range; intros [Hc _]; lra|].
      split; [|split; [exact Hprod2 | unfold srt_to_voice.in_range; lra]].
      intros fuel Hf. unfold srt_to_voice.decompose.
      rewrite Hrun by lia. simpl app. now rewrite Hrun2 by lia.
    + (* already in range: a single stage *)
      destruct (doubling_spec 0 r [])
        as (k2 & r'' & Hk2 & Hrun2 & _ & _ & _ & Hk0' & _).
      { change (inject_Z (2 ^ Z.of_nat 0)) with 1%Q. lra. }
      assert (k2 = 0%nat) as -> by lia. rewrite (Hk0' eq_refl) in Hrun2.
      exists 1%nat, 0%nat, 2%Q, r.
      split; [unfold srt_to_voice.in_range; lra|]. split; [reflexivity|].
      split; [intros Hc; lra|]. split; [intros Hc; lra|].
      split; [intros _; split; reflexivity|].
      split; [|split; [simpl; ring | unfold srt_to_voice.in_range; lra]].
      intros fuel Hf. unfold srt_to_voice.decompose.
      rewrite Hrun by lia. simpl app. now rewrite Hrun2 by lia.
Qed.

(** A ratio of zero or less never leaves the second loop. *)
Lemma doubling_diverges (fuel : nat) : forall remain filters,
  (remain <= 0)%Q -> srt_to_voice.doubling fuel remain filters = None.
Proof.
  induction fuel as [|fuel IH]; intros remain filters Hle; simpl; [reflexivity|].
  assert (E : Qlt_bool remain (1 # 2) = true) by (apply Qlt_bool_iff; lra).
  rewrite E. apply IH.
  assert (Hdiv : (remain / (1 # 2) == 2 * remain)%Q) by field.
  rewrite Hdiv. lra.
Qed.

Lemma atempo_filters_diverges (fuel : nat) (speed : Q) :
  (speed <= 0)%Q -> srt_to_voice.atempo_filters fuel speed = None.
Proof.
  intros Hle. unfold srt_to_voice.atempo_filters, srt_to_voice.decompose.
  destruct fuel as [|fuel]; [reflexivity|]. simpl srt_to_voice.halving.
  assert (E : Qlt_bool 2 speed = false).
  { apply not_true_iff_false. rewrite Qlt_bool_iff. lra. }
  rewrite E. now rewrite doubling_diverges.
Qed.

(** C6: for a ratio above zero the two loops stop, and what they leave is
    some number [k] of stages of 2.0 (when the ratio is above 2.0) or of
    0.5 (when it is below 0.5) followed by the remaining factor; the
    product of the stages is the ratio, every stage lies in [0.5, 2.0],
    and printing the last stage with five decimals keeps it in that range
    and moves the product by at most one part in 100000. *)
Theorem stretch_stages_decompose (r : Q) :
  (0 < r)%Q ->
  exists (n k : nat) (a remain : Q), srt_to_voice.decomposed r n k a remain.
Proof.
  intros Hr.
  destruct (decompose_spec r Hr)
    as (n & k & a & remain & Ha & Ha0 & H1 & H2 & H3 & Hrun & Hprod & Hrem).
  exists n, k, a, remain. unfold srt_to_voice.decomposed.
  split; [exact H1|]. split; [exact H2|]. split; [exact H3|].
  split; [|split; [|split; [|split]]].
  - intros fuel Hf. unfold srt_to_voice.stages, srt_to_voice.atempo_filters.
    now rewrite (Hrun fuel Hf).
  - rewrite product_snoc, Qmult_comm. exact Hprod.
  - apply Forall_app. split; [now apply Forall_in_range_replicate|].
    constructor; [exact Hrem | constructor].
  - apply Forall_app. split; [now apply Forall_in_range_replicate|].
    constructor; [now apply format_5f_in_range | constructor].
  - apply formatted_product_close.
    + now apply product_replicate_pos.
    + rewrite Qmult_comm. exact Hprod.
    + apply Hrem.
Qed.

(** The ratio 5.0 of the specification: stages 2.0, 2.0, 1.25. *)
Lemma stretch_stages_witness :
  exists (n k : nat) (a remain : Q), srt_to_voice.decomposed 5 n k a remain.
Proof. apply (stretch_stages_decompose 5). reflexivity. Defined.

Example stages_third :
  srt_to_voice.atempo_filters 10 (1 # 3) = Some [1 # 2; 66667 # 100000]%Q.
Proof. vm_compute. reflexivity. Qed.

(** ** The synthesiser *)



Lemma len_nonneg (seg : srt_to_voice.AudioSegment) : 0 <= srt_to_voice.len seg.
Proof. unfold srt_to_voice.len. lia. Qed.


Lemma get_duration_ms_quot (td : timedelta) :
  srt_to_voice.get_duration_ms td = Z.quot td 1000.
Proof.
  unfold srt_to_voice.get_duration_ms, srt_to_voice.int_of, total_seconds, us_per_second.
  unfold Qmult, inject_Z. simpl Qnum. simpl Qden.
  change (Z.pos (1000000 * 1)) with (1000 * 1000).
  rewrite Z.quot_mul_cancel_r; lia.
Qed.



Lemma trim_silence_of_silence :
  srt_to_voice.trim_silence (srt_to_voice.silent 3000) = [].
Proof. vm_compute. reflexivity. Qed.

(** C3: a cue of 2 s whose rendered speech is 3 s of silence.  The speech
    is longer than the target, trimming leaves nothing of it, the speed is
    0/2000 = 0, and the loop [while remain < 0.5] never ends: whatever the
    fuel and whatever ffmpeg would do, step 3 and the whole run are still
    in that loop. *)
Theorem silent_speech_is_never_fitted
    (ffmpeg : srt_to_voice.AudioSegment -> list Q -> srt_to_voice.AudioSegment)
    (fuel : nat) :
  let sub := cue 1 0 2000 in
  let seg := srt_to_voice.silent 3000 in
  let target_len := srt_to_voice.get_duration_ms (end_ sub - start sub) in
  target_len = 2000 /\
  srt_to_voice.len seg = 3000 /\
  srt_to_voice.fit ffmpeg fuel seg target_len = srt_to_voice.OutOfFuel /\
  srt_to_voice.srt_to_voice (fun _ => seg) ffmpeg fuel [sub] = srt_to_voice.OutOfFuel.
Proof.
  cbv zeta.
  assert (Ht : srt_to_voice.get_duration_ms (end_ (cue 1 0 2000) - start (cue 1 0 2000))
               = 2000) by reflexivity.
  assert (Hfit : srt_to_voice.fit ffmpeg fuel (srt_to_voice.silent 3000) 2000 = srt_to_voice.OutOfFuel).
  { unfold srt_to_voice.fit.
    change (2000 <? srt_to_voice.len (srt_to_voice.silent 3000)) with true. cbv iota.
    rewrite trim_silence_of_silence.
    change (srt_to_voice.true_div (srt_to_voice.len []) 2000)
      with (srt_to_voice.Done (inject_Z 0 / inject_Z 2000)%Q : srt_to_voice.outcome Q).
    unfold mbind, srt_to_voice.outcome_bind, srt_to_voice.ffmpeg_speedup.
    rewrite atempo_filters_diverges; [reflexivity|].
    vm_compute. congruence. }
  rewrite Ht. repeat split; [exact Hfit|].
  unfold srt_to_voice.srt_to_voice, srt_to_voice.voice_loop, srt_to_voice.voice_step.
  rewrite Ht, Hfit. reflexivity.
Qed.

(** *** The whole track *)



(** ** The program's own arithmetic

    The theorems of this part evaluate module [Binary64], where every
    [total_seconds()] is the float the program computes. *)

(** The spec's scenario comes out the same on floats: the 0.3 s gap is
    merged, the 6 s gap is cut. *)
Example binary64_scenario_segments :
  Binary64.parse_srt_segments [cue 1 0 2000; cue 2 2300 4000; cue 3 10000 12000]
  = [ {| Binary64.seg_start := 0; Binary64.seg_end := 4 |};
      {| Binary64.seg_start := 10; Binary64.seg_end := 12 |} ].
Proof. vm_compute. reflexivity. Qed.

(** How often the two readings part, by evaluation over the first ten
    seconds in steps of a millisecond: of the 10000 gaps of exactly 500 ms
    behind an end of 0 to 9999 ms the merger's float test merges 597 (the
    exact test merges none); of the 10000 durations of 0 to 9999 ms
    [get_duration_ms] comes out one millisecond short for 95 and never
    long. *)
Example binary64_counts :
  length (filter (fun e => Binary64.gap_below_half (cue 2 (e + 500) (e + 1000))
                             (Binary64.new_segment (cue 1 0 e)) = true)
            (map Z.of_nat (seq 0 (Z.to_nat 10000)))) = 597%nat /\
  length (filter (fun ms => Binary64.get_duration_ms (of_milliseconds ms) = ms - 1)
            (map Z.of_nat (seq 0 (Z.to_nat 10000)))) = 95%nat /\
  forallb (fun ms => (Binary64.get_duration_ms (of_milliseconds ms) <=? ms)
                     && (ms - 1 <=? Binary64.get_duration_ms (of_milliseconds ms)))
    (map Z.of_nat (seq 0 (Z.to_nat 10000))) = true.
Proof. repeat split; vm_compute; reflexivity. Qed.

(** C1: the cues 0-1.8 s and 2.3-3 s are 0.5 s apart, exactly the
    threshold of both tools.  The merger subtracts the two floats 2.3 and
    1.8, gets 0.4999999999999998, finds it below 0.5 and merges a gap
    equal to the threshold: one kept interval, 0-3 s.  The
    resynchroniser takes the float of the exact difference, 0.5, finds it
    at the threshold and closes the gap: the second cue is moved to
    1.8-2.5 s.  The two decisions at this boundary are opposite. *)
Theorem half_second_gap_is_merged_and_closed :
  let p := cue 1 0 1800 in
  let x := cue 2 2300 3000 in
  start x - end_ p = of_milliseconds 500 /\
  Binary64.to_Q (PrimFloat.sub (Binary64.total_seconds (start x))
                               (Binary64.total_seconds (end_ p)))
    = (9007199254740988 # 18014398509481984)%Q /\
  Binary64.gap_below_half x (Binary64.new_segment p) = true /\
  Binary64.parse_srt_segments [p; x]
    = [ {| Binary64.seg_start := 0; Binary64.seg_end := 3 |} ] /\
  Binary64.total_seconds (start x - end_ p) = 0.5%float /\
  Binary64.sync_shifts 0.5 p x = true /\
  option_map (fun r => map (fun y => (start y, end_ y)) (srt_cut_sync.out_subs r))
    (srt_cut_sync.sync_srt [p; x] MERGE_GAP)
  = Some [ (0, 1800000); (1800000, 2500000) ].
Proof. repeat split; vm_compute; reflexivity. Qed.

(** C5: on the same two cues, at the threshold 0.5 of both tools, the
    resynchroniser reports 0.5 s saved (the last end goes from 3 s to
    2.5 s), while the merger keeps the one interval 0-3 s, whose length
    3.0 is the sum [cut_video] forms: the original 3 s less the kept 3 s is
    0, not 0.5. *)
Theorem reported_saving_differs_from_time_cut :
  let subs := [cue 1 0 1800; cue 2 2300 3000] in
  Forall well_formed subs /\
  StronglySorted by_end (sort_by_start subs) /\
  option_map (fun r => (srt_cut_sync.original_end r, srt_cut_sync.new_end r,
                        srt_cut_sync.saved r))
    (srt_cut_sync.sync_srt subs MERGE_GAP)
  = Some (3000000, 2500000, total_seconds 500000) /\
  Binary64.total_seconds (3000000 - 2500000) = 0.5%float /\
  map (fun s => PrimFloat.sub (Binary64.seg_end s) (Binary64.seg_start s))
    (Binary64.parse_srt_segments subs)
  = [ 3%float ] /\
  Binary64.total_seconds 3000000 = 3%float.
Proof.
  repeat split; try (vm_compute; reflexivity);
    repeat constructor; vm_compute; congruence.
Qed.

(** C4: two runs whose track is not as long as the last cue's end, for
    every stretcher and every bound on the loops; the speech is 500 ms for
    each cue.  One cue from 0 to 1.001 s: [1.001 * 1000] is
    1000.9999999999999 on floats, [int] gives the target 1000, and the
    track is 1000 ms long where the cue ends at 1001 ms.  The cues 0-2 s
    and 1-3 s: the second starts before the first ends, no silence is
    inserted and nothing is cut, and the track is 4000 ms long where the
    last cue ends at 3000 ms. *)
Theorem track_length_is_not_last_end
    (ffmpeg : srt_to_voice.AudioSegment -> list Q -> srt_to_voice.AudioSegment)
    (fuel : nat) :
  let speech := fun _ : string => replicate 500 true in
  Binary64.get_duration_ms (of_milliseconds 1001) = 1000 /\
  Binary64.srt_to_voice speech ffmpeg fuel [cue 1 0 1001]
    = srt_to_voice.Done (replicate 500 true ++ replicate 500 false) /\
  srt_to_voice.len (replicate 500 true ++ replicate 500 false) = 1000 /\
  of_milliseconds 1000 < end_ (cue 1 0 1001) /\
  Binary64.srt_to_voice speech ffmpeg fuel [cue 1 0 2000; cue 2 1000 3000]
    = srt_to_voice.Done
        ((replicate 500 true ++ replicate 1500 false)
         ++ replicate 500 true ++ replicate 1500 false) /\
  srt_to_voice.len ((replicate 500 true ++ replicate 1500 false)
                    ++ replicate 500 true ++ replicate 1500 false) = 4000 /\
  end_ (cue 2 1000 3000) < of_milliseconds 4000.
Proof. repeat split; vm_compute; reflexivity. Qed.

(** The same quotient on floats and exactly: at 1601/1600 the two print
    different last stages. *)
Example binary64_true_div_tie :
  srt_to_voice.format_5f (Binary64.to_Q (PrimFloat.div (Binary64.float_of_Z 1601)
                                                       (Binary64.float_of_Z 1600)))
    = (100063 # 100000)%Q /\
  srt_to_voice.format_5f (1601 # 1600) = (100062 # 100000)%Q.
Proof. split; vm_compute; reflexivity. Qed.

(** * Further properties *)

(** ** The resynchroniser: what it keeps and what it closes *)

Lemma sync_from_length G l : forall prev shift i,
  length (srt_cut_sync.sync_from G prev shift i l) = length l.
Proof.
  induction l as [|x l IH]; intros prev shift i; simpl; [reflexivity|].
  now rewrite IH.
Qed.

(** The cue appended for the [k]-th remaining cue: renumbered, stripped,
    moved as a whole. *)
Lemma sync_from_lookup G l : forall prev shift i k x,
  l !! k = Some x ->
  exists y,
    srt_cut_sync.sync_from G prev shift i l !! k = Some y /\
    index y = (i + k + 1)%nat /\
    content y = strip (content x) /\
    start x - start y = end_ x - end_ y.
Proof.
  induction l as [|a l IH]; intros prev shift i k x Hx; [destruct k; discriminate|].
  destruct k as [|k]; simpl in Hx.
  - injection Hx as <-. eexists. split; [reflexivity|]. simpl.
    repeat split; lia.
  - cbn [srt_cut_sync.sync_from].
    destruct (IH a (if Qle_bool G (srt_cut_sync.gap_seconds prev a)
                    then shift + timedelta_of_seconds (srt_cut_sync.gap_seconds prev a)
                    else shift) (S i) k x Hx)
      as (y & Hy & Hi & Hc & Hd).
    exists y. split; [exact Hy|]. repeat split; auto. lia.
Qed.

(** [sub.content.strip()] removes white space beyond ASCII too: an
    ideographic space in front, a no-break space and a line feed behind. *)
Example strip_examples :
  strip (bytes [227; 128; 128; 97; 32; 98; 194; 160; 10]%nat) = "a b"%string /\
  strip " a "%string = "a"%string /\
  strip (bytes [32; 227; 128; 128]%nat) = EmptyString.
Proof. repeat split; vm_compute; reflexivity. Qed.

(** X1: [sync_srt] returns early exactly when the parser gives no cue;
    otherwise [synced], the list it hands to [srt.compose], has one cue
    per parsed cue, in start order, numbered from 1, with the text
    stripped and start and end moved by the same amount. *)
Theorem sync_srt_keeps_cues (subs : list Subtitle) (G : Q) :
  (srt_cut_sync.sync_srt subs G = None <-> subs = []) /\
  (forall r, srt_cut_sync.sync_srt subs G = Some r ->
     length (srt_cut_sync.out_subs r) = length subs /\
     forall i x, sort_by_start subs !! i = Some x ->
       exists y,
         srt_cut_sync.out_subs r !! i = Some y /\
         index y = S i /\
         content y = strip (content x) /\
         start x - start y = end_ x - end_ y).
Proof.
  rewrite sync_srt_eq.
  pose proof (sort_by_start_perm subs) as Hp.
  destruct (sort_by_start subs) as [|first l] eqn:Hs.
  - apply Permutation_sym, Permutation_nil in Hp. subst subs.
    split; [tauto|]. intros r Hr. discriminate.
  - split.
    + split; [discriminate|]. intros ->. discriminate.
    + intros r Hr. cbv zeta in Hr. injection Hr as <-.
      cbn [srt_cut_sync.out_subs]. split.
      * simpl. rewrite sync_from_length.
        apply Permutation_length in Hp. simpl in Hp. lia.
      * intros [|i] x Hx; simpl in Hx.
        -- injection Hx as <-. eexists. split; [reflexivity|]. simpl.
           repeat split; lia.
        -- destruct (sync_from_lookup G l first (start first) 1 i x Hx)
             as (y & Hy & Hi & Hc & Hd).
           exists y. split; [exact Hy|]. repeat split; auto. lia.
Qed.

Lemma sync_from_gaps G l : forall prev shift i,
  (forall x y, l !! 0%nat = Some x ->
     srt_cut_sync.sync_from G prev shift i l !! 0%nat = Some y ->
     start y - (end_ prev - shift) = closed_gap G prev x /\
     end_ x - end_ y = start x - start y) /\
  (forall k p x p' x',
     l !! k = Some p -> l !! S k = Some x ->
     srt_cut_sync.sync_from G prev shift i l !! k = Some p' ->
     srt_cut_sync.sync_from G prev shift i l !! S k = Some x' ->
     start x' - end_ p' = closed_gap G p x).
Proof.
  induction l as [|a l IH]; intros prev shift i.
  - split; intros; discriminate.
  - cbn [srt_cut_sync.sync_from].
    set (shift' := if Qle_bool G (srt_cut_sync.gap_seconds prev a)
                   then shift + timedelta_of_seconds (srt_cut_sync.gap_seconds prev a)
                   else shift).
    destruct (IH a shift' (S i)) as [Hhead Hrest].
    split.
    + intros x y Hx Hy. simpl in Hx, Hy. injection Hx as <-. injection Hy as <-.
      simpl. unfold closed_gap. subst shift'.
      destruct (Qle_bool G (srt_cut_sync.gap_seconds prev a)).
      * unfold srt_cut_sync.gap_seconds. rewrite timedelta_of_total_seconds. lia.
      * lia.
    + intros [|k] p x p' x' Hp Hx Hp' Hx'; simpl in Hp, Hx, Hp', Hx'.
      * injection Hp as <-. injection Hp' as <-. simpl.
        destruct (Hhead x x' Hx Hx') as [Hg _]. exact Hg.
      * eapply Hrest; eauto.
Qed.

(** X2: between two consecutive output cues the input gap is left as it was
    when it is below the threshold and closed entirely when it reaches
    it; so with a positive threshold no output gap reaches it. *)
Theorem sync_srt_gaps (subs : list Subtitle) (G : Q) r i p x p' x' :
  srt_cut_sync.sync_srt subs G = Some r ->
  sort_by_start subs !! i = Some p ->
  sort_by_start subs !! S i = Some x ->
  srt_cut_sync.out_subs r !! i = Some p' ->
  srt_cut_sync.out_subs r !! S i = Some x' ->
  start x' - end_ p' = closed_gap G p x /\
  ((0 < G)%Q -> (srt_cut_sync.gap_seconds p' x' < G)%Q).
Proof.
  intros Hr Hp Hx Hp' Hx'. rewrite sync_srt_eq in Hr.
  destruct (sort_by_start subs) as [|first l]; [discriminate|].
  cbv zeta in Hr. injection Hr as <-. cbn [srt_cut_sync.out_subs] in Hp', Hx'.
  assert (Hgap : start x' - end_ p' = closed_gap G p x).
  { destruct (sync_from_gaps G l first (start first) 1) as [Hhead Hrest].
    destruct i as [|i]; simpl in Hp, Hx, Hp', Hx'.
    - injection Hp as <-. injection Hp' as <-. simpl.
      destruct (Hhead x x' Hx Hx') as [Hg _]. lia.
    - eapply Hrest; eauto. }
  split; [exact Hgap|]. intros HG.
  unfold srt_cut_sync.gap_seconds. rewrite Hgap. unfold closed_gap.
  destruct (Qle_bool G (srt_cut_sync.gap_seconds p x)) eqn:E.
  - now rewrite total_seconds_0.
  - apply not_true_iff_false in E. rewrite Qle_bool_iff in E.
    apply Qnot_le_lt in E. exact E.
Qed.

(** The scenario of the specification: the 6 s gap is closed, the 0.3 s
    gap is kept. *)
Lemma sync_srt_gaps_witness :
  let p' := {| index := 2; start := 2300000; end_ := 4000000; content := "" |} in
  let x' := {| index := 3; start := 4000000; end_ := 6000000; content := "" |} in
  start x' - end_ p' = closed_gap (1 # 2) (cue 2 2300 4000) (cue 3 10000 12000) /\
  ((0 < 1 # 2)%Q -> (srt_cut_sync.gap_seconds p' x' < 1 # 2)%Q).
Proof.
  eapply (sync_srt_gaps [cue 1 0 2000; cue 2 2300 4000; cue 3 10000 12000] (1 # 2)
            _ 1%nat (cue 2 2300 4000) (cue 3 10000 12000));
    vm_compute; reflexivity.
Defined.

Lemma sync_from_sorted G l : forall prev shift i,
  StronglySorted by_start (prev :: l) ->
  Forall forward (prev :: l) ->
  Forall (fun y => start prev - shift <= start y) (srt_cut_sync.sync_from G prev shift i l) /\
  StronglySorted by_start (srt_cut_sync.sync_from G prev shift i l).
Proof.
  induction l as [|x l IH]; intros prev shift i Hs Hf.
  - split; constructor.
  - cbn [srt_cut_sync.sync_from].
    set (shift' := if Qle_bool G (srt_cut_sync.gap_seconds prev x)
                   then shift + timedelta_of_seconds (srt_cut_sync.gap_seconds prev x)
                   else shift).
    apply StronglySorted_inv in Hs as [Hs Hp].
    apply Forall_cons in Hp as [Hpx _]. unfold by_start in Hpx.
    apply Forall_cons in Hf as [Hfp Hf]. unfold forward in Hfp.
    assert (Hstep : start prev - shift <= start x - shift').
    { subst shift'. destruct (Qle_bool _ _); [|lia].
      unfold srt_cut_sync.gap_seconds. rewrite timedelta_of_total_seconds. lia. }
    destruct (IH x shift' (S i) Hs Hf) as [F S'].
    split.
    + constructor; [exact Hstep|].
      eapply Forall_impl; [exact F|]. simpl. intros; lia.
    + constructor; [exact S'|].
      eapply Forall_impl; [exact F|]. unfold by_start. simpl. intros; lia.
Qed.

(** X3: the first cue of [synced], the list handed to [srt.compose],
    starts at zero, whatever the cues are; when no cue ends before it
    starts, the list is in start order and none of its cues starts before
    zero. *)
Theorem sync_srt_starts_at_zero (subs : list Subtitle) (G : Q) r :
  srt_cut_sync.sync_srt subs G = Some r ->
  (exists y, srt_cut_sync.out_subs r !! 0%nat = Some y /\ start y = 0) /\
  (Forall forward subs ->
   StronglySorted by_start (srt_cut_sync.out_subs r) /\
   Forall (fun y => 0 <= start y) (srt_cut_sync.out_subs r)).
Proof.
  intros Hr. rewrite sync_srt_eq in Hr.
  pose proof (sort_by_start_sorted subs) as Hs.
  pose proof (fun Hf => sort_by_start_Forall forward subs Hf) as Hfw.
  destruct (sort_by_start subs) as [|first l]; [discriminate|].
  cbv zeta in Hr. injection Hr as <-. cbn [srt_cut_sync.out_subs].
  split.
  - eexists. split; [reflexivity|]. simpl. lia.
  - intros Hf. specialize (Hfw Hf).
    destruct (sync_from_sorted G l first (start first) 1 Hs Hfw) as [F S'].
    split.
    + constructor; [exact S'|].
      eapply Forall_impl; [exact F|]. unfold by_start. simpl. intros; lia.
    + constructor; [simpl; lia|].
      eapply Forall_impl; [exact F|]. simpl. intros; lia.
Qed.

Lemma sync_srt_starts_at_zero_witness :
  exists r,
    srt_cut_sync.sync_srt [cue 2 2300 4000; cue 1 500 2000; cue 3 10000 12000] (1 # 2)
      = Some r /\
    (exists y, srt_cut_sync.out_subs r !! 0%nat = Some y /\ start y = 0) /\
    Forall forward [cue 2 2300 4000; cue 1 500 2000; cue 3 10000 12000] /\
    StronglySorted by_start (srt_cut_sync.out_subs r) /\
    Forall (fun y => 0 <= start y) (srt_cut_sync.out_subs r).
Proof.
  eexists. split; [vm_compute; reflexivity|].
  assert (Hf : Forall forward [cue 2 2300 4000; cue 1 500 2000; cue 3 10000 12000])
    by (repeat constructor; vm_compute; congruence).
  destruct (sync_srt_starts_at_zero
              [cue 2 2300 4000; cue 1 500 2000; cue 3 10000 12000] (1 # 2) _
              ltac:(vm_compute; reflexivity)) as [H1 H2].
  split; [exact H1|]. split; [exact Hf|]. exact (H2 Hf).
Defined.

(** A first cue that ends before it starts (0.5 s to 0.2 s) is moved to
    zero like any other; the cue after it then starts before zero. *)
Example sync_srt_backward_first_cue :
  option_map (fun r => map (fun y => (start y, end_ y)) (srt_cut_sync.out_subs r))
    (srt_cut_sync.sync_srt [cue 2 2300 4000; cue 1 500 200] (1 # 2))
  = Some [ (0, -300000); (-300000, 1400000) ].
Proof. vm_compute. reflexivity. Qed.



(** *** Nothing is moved later *)

Lemma max_end_ge a l x :
  x ∈ a :: l -> end_ x <= srt_cut_sync.max_end (a :: l).
Proof.
  assert (H : forall m : timedelta,
    m <= fold_left (fun m y => if m <? end_ y then end_ y else m) l m /\
    (x ∈ l -> end_ x <= fold_left (fun m y => if m <? end_ y then end_ y else m) l m)).
  { induction l as [|b l IH]; intros m.
    - split; [simpl; lia|]. intros H. inversion H.
    - rewrite fold_left_cons. cbv beta.
      destruct (m <? end_ b) eqn:E; [apply Z.ltb_lt in E | apply Z.ltb_ge in E].
      + destruct (IH (end_ b)) as [H1 H2]. split; [lia|].
        intros Hin. apply elem_of_cons in Hin as [-> | Hin]; [lia | auto].
      + destruct (IH m) as [H1 H2]. split; [lia|].
        intros Hin. apply elem_of_cons in Hin as [-> | Hin]; [lia | auto]. }
  intros Hin. unfold srt_cut_sync.max_end. destruct (H (end_ a)) as [H1 H2].
  apply elem_of_cons in Hin as [-> | Hin]; [exact H1 | exact (H2 Hin)].
Qed.

Lemma max_end_attained a l :
  exists x, x ∈ a :: l /\ srt_cut_sync.max_end (a :: l) = end_ x.
Proof.
  assert (H : forall m : timedelta,
    fold_left (fun m y => if m <? end_ y then end_ y else m) l m = m \/
    exists x, x ∈ l /\
      fold_left (fun m y => if m <? end_ y then end_ y else m) l m = end_ x).
  { induction l as [|b l IH]; intros m; [now left|].
    rewrite fold_left_cons. cbv beta.
    destruct (m <? end_ b) eqn:E.
    - destruct (IH (end_ b)) as [E' | (x & Hx & E')].
      + right. exists b. split; [left | exact E'].
      + right. exists x. split; [now right | exact E'].
    - destruct (IH m) as [E' | (x & Hx & E')].
      + now left.
      + right. exists x. split; [now right | exact E']. }
  unfold srt_cut_sync.max_end. destruct (H (end_ a)) as [E | (x & Hx & E)].
  - exists a. split; [left | exact E].
  - exists x. split; [now right | exact E].
Qed.

Lemma sync_from_not_later G l :
  (0 <= G)%Q ->
  forall prev shift i k y,
  0 <= shift ->
  srt_cut_sync.sync_from G prev shift i l !! k = Some y ->
  exists x, l !! k = Some x /\ start y <= start x /\ end_ y <= end_ x.
Proof.
  intros HG. induction l as [|a l IH]; intros prev shift i k y Hs Hy;
    [destruct k; discriminate|].
  cbn [srt_cut_sync.sync_from] in Hy.
  set (shift' := if Qle_bool G (srt_cut_sync.gap_seconds prev a)
                 then shift + timedelta_of_seconds (srt_cut_sync.gap_seconds prev a)
                 else shift) in *.
  assert (Hs' : 0 <= shift').
  { subst shift'. destruct (Qle_bool G (srt_cut_sync.gap_seconds prev a)) eqn:E; [|lia].
    apply Qle_bool_iff in E. unfold srt_cut_sync.gap_seconds in *.
    rewrite timedelta_of_total_seconds.
    assert (H0 : (total_seconds 0%Z <= total_seconds (start a - end_ prev)%Z)%Q).
    { rewrite total_seconds_0. exact (Qle_trans _ _ _ HG E). }
    apply (proj1 (total_seconds_le _ _)) in H0. lia. }
  destruct k as [|k]; simpl in Hy.
  - injection Hy as <-. exists a. split; [reflexivity|]. simpl. lia.
  - destruct (IH a shift' (S i) k y Hs' Hy) as (x & Hx & Hle). exists x. auto.
Qed.

(** X6: with a threshold of zero or more and no cue starting before zero, no
    cue is moved later (each output cue starts and ends no later than its
    input cue) and the time reported as saved is not negative. *)
Theorem sync_srt_never_moves_later (subs : list Subtitle) (G : Q) r :
  (0 <= G)%Q ->
  Forall (fun x => 0 <= start x) subs ->
  srt_cut_sync.sync_srt subs G = Some r ->
  (forall i y, srt_cut_sync.out_subs r !! i = Some y ->
     exists x, sort_by_start subs !! i = Some x /\
               start y <= start x /\ end_ y <= end_ x) /\
  (0 <= srt_cut_sync.saved r)%Q.
Proof.
  intros HG Hpos Hr. rewrite sync_srt_eq in Hr.
  apply sort_by_start_Forall in Hpos.
  destruct (sort_by_start subs) as [|first l]; [discriminate|].
  cbv zeta in Hr. injection Hr as <-.
  cbn [srt_cut_sync.out_subs srt_cut_sync.saved].
  apply Forall_cons in Hpos as [Hfirst _].
  assert (Hpt : forall i y,
    ({| index := 1; start := start first - start first;
        end_ := end_ first - start first; content := strip (content first) |}
     :: srt_cut_sync.sync_from G first (start first) 1 l) !! i = Some y ->
    exists x, (first :: l) !! i = Some x /\ start y <= start x /\ end_ y <= end_ x).
  { intros [|i] y Hy; simpl in Hy.
    - injection Hy as <-. exists first. split; [reflexivity|]. simpl. lia.
    - now apply (sync_from_not_later G l HG first (start first) 1 i y). }
  split; [exact Hpt|].
  apply Qle_trans with (total_seconds 0%Z); [rewrite total_seconds_0; apply Qle_refl|].
  apply total_seconds_le.
  destruct (max_end_attained
              {| index := 1; start := start first - start first;
                 end_ := end_ first - start first; content := strip (content first) |}
              (srt_cut_sync.sync_from G first (start first) 1 l)) as (y & Hy & E).
  apply list_elem_of_lookup in Hy as [k Hk].
  destruct (Hpt k y Hk) as (x & Hx & _ & Hle).
  pose proof (max_end_ge first l x (list_elem_of_lookup_2 _ _ _ Hx)) as Hmax.
  unfold srt_cut_sync.max_end in E, Hmax. cbn [end_] in E.
  rewrite E. lia.
Qed.

Lemma sync_srt_never_moves_later_witness :
  exists r,
    srt_cut_sync.sync_srt [cue 1 1000 2000; cue 2 2300 4000; cue 3 10000 12000] (1 # 2)
      = Some r /\
    (0 <= srt_cut_sync.saved r)%Q.
Proof.
  eexists. split; [vm_compute; reflexivity|].
  eapply (sync_srt_never_moves_later
            [cue 1 1000 2000; cue 2 2300 4000; cue 3 10000 12000] (1 # 2)).
  - vm_compute. congruence.
  - repeat constructor; vm_compute; congruence.
  - vm_compute. reflexivity.
Defined.

(** ** The merger: kept intervals against cues *)

Lemma merge_from_covers l : forall cur,
  StronglySorted by_start l ->
  StronglySorted by_end l ->
  Forall (fun y => (seg_start cur <= total_seconds (start y))%Q) l ->
  Forall (fun y => (seg_end cur <= total_seconds (end_ y))%Q) l ->
  (exists s rest, merge_from cur l = s :: rest /\
                  seg_start s = seg_start cur /\ (seg_end cur <= seg_end s)%Q) /\
  (forall y, y ∈ l -> exists s, s ∈ merge_from cur l /\ covers s y).
Proof.
  induction l as [|x l IH]; intros cur Hs He Hlo Hhi.
  - split; [|intros y Hy; inversion Hy].
    exists cur, []. repeat split. apply Qle_refl.
  - apply StronglySorted_inv in Hs as [Hs Hsx].
    apply StronglySorted_inv in He as [He Hx].
    apply Forall_cons in Hlo as [Hlox Hlo].
    apply Forall_cons in Hhi as [Hhix Hhi].
    assert (Hends : Forall (fun y => (total_seconds (end_ x) <= total_seconds (end_ y))%Q) l).
    { eapply Forall_impl; [exact Hx|]. unfold by_end. intros y Hy.
      now apply total_seconds_le. }
    assert (Hstarts : Forall (fun y => (total_seconds (start x)
                                        <= total_seconds (start y))%Q) l).
    { eapply Forall_impl; [exact Hsx|]. unfold by_start. intros y Hy.
      now apply total_seconds_le. }
    cbn [merge_from]. destruct (Qlt_bool _ _).
    + destruct (IH {| seg_start := seg_start cur; seg_end := total_seconds (end_ x) |}
                  Hs He Hlo Hends) as [(s & rest & E & Hst & Hle) Hcov].
      cbn [seg_start seg_end] in Hst, Hle. split.
      * exists s, rest. repeat split; auto.
        now apply Qle_trans with (total_seconds (end_ x)).
      * intros y Hy. apply elem_of_cons in Hy as [-> | Hy]; [|now apply Hcov].
        exists s. split; [rewrite E; left|]. split; [now rewrite Hst | exact Hle].
    + destruct (IH (new_segment x) Hs He Hstarts Hends)
        as [(s & rest & E & Hst & Hle) Hcov].
      cbn [new_segment seg_start seg_end] in Hst, Hle. split.
      * exists cur, (merge_from (new_segment x) l). repeat split. apply Qle_refl.
      * intros y Hy. apply elem_of_cons in Hy as [-> | Hy].
        -- exists s. split; [right; rewrite E; left|].
           split; [rewrite Hst; apply Qle_refl | exact Hle].
        -- destruct (Hcov y Hy) as (s' & Hs' & Hc).
           exists s'. split; [now right | exact Hc].
Qed.

Lemma parse_srt_segments_covers (subs : list Subtitle) (x : Subtitle) :
  StronglySorted by_end (sort_by_start subs) ->
  x ∈ subs ->
  exists s, s ∈ ffmpeg_cut_select.parse_srt_segments subs /\ covers s x.
Proof.
  intros He Hx. rewrite parse_srt_segments_eq.
  rewrite (sort_by_start_perm subs) in Hx.
  pose proof (sort_by_start_sorted subs) as Hs.
  destruct (sort_by_start subs) as [|first l]; [inversion Hx|].
  apply StronglySorted_inv in Hs as [Hs Hsx].
  apply StronglySorted_inv in He as [He Hex].
  destruct (merge_from_covers l (new_segment first) Hs He)
    as [(s & rest & E & Hst & Hle) Hcov].
  - eapply Forall_impl; [exact Hsx|]. unfold by_start. intros y Hy.
    now apply total_seconds_le.
  - eapply Forall_impl; [exact Hex|]. unfold by_end. intros y Hy.
    now apply total_seconds_le.
  - apply elem_of_cons in Hx as [-> | Hx]; [|now apply Hcov].
    exists s. split; [rewrite E; left|].
    split; [rewrite Hst; apply Qle_refl | exact Hle].
Qed.

(** X7: when the cue ends do not go back in start order, every cue lies
    inside one of the kept intervals: no subtitle is cut into. *)
Theorem kept_intervals_cover_cues (subs : list Subtitle) (x : Subtitle) :
  StronglySorted by_end (sort_by_start subs) ->
  x ∈ subs ->
  exists s, s ∈ ffmpeg_cut_select.parse_srt_segments subs /\ covers s x.
Proof. apply parse_srt_segments_covers. Qed.

Lemma kept_intervals_cover_witness :
  exists s,
    s ∈ ffmpeg_cut_select.parse_srt_segments
          [cue 1 0 2000; cue 2 1500 4000; cue 3 10000 12000] /\
    covers s (cue 2 1500 4000).
Proof.
  apply (kept_intervals_cover_cues
           [cue 1 0 2000; cue 2 1500 4000; cue 3 10000 12000] (cue 2 1500 4000)).
  - repeat constructor; vm_compute; congruence.
  - right. left.
Defined.

Lemma merge_from_bounds l : forall cur s,
  s ∈ merge_from cur l ->
  (seg_start s = seg_start cur \/
   exists x, x ∈ l /\ seg_start s = total_seconds (start x)) /\
  (seg_end s = seg_end cur \/
   exists y, y ∈ l /\ seg_end s = total_seconds (end_ y)).
Proof.
  induction l as [|a l IH]; intros cur s Hs.
  - apply list_elem_of_singleton in Hs as ->. split; now left.
  - cbn [merge_from] in Hs.
    assert (Hlift : forall P : Subtitle -> Prop,
              (exists x, x ∈ l /\ P x) -> exists x, x ∈ a :: l /\ P x).
    { intros P (x & Hx & HP). exists x. split; [now right | exact HP]. }
    destruct (Qlt_bool _ _).
    + destruct (IH _ s Hs) as [H1 H2]. cbn [seg_start seg_end] in H1, H2. split.
      * destruct H1 as [H1 | H1]; [now left | right; now apply Hlift].
      * right. destruct H2 as [H2 | H2]; [|now apply Hlift].
        exists a. split; [left | exact H2].
    + apply elem_of_cons in Hs as [-> | Hs]; [split; now left|].
      destruct (IH _ s Hs) as [H1 H2].
      cbn [new_segment seg_start seg_end] in H1, H2. split; right.
      * destruct H1 as [H1 | H1]; [|now apply Hlift].
        exists a. split; [left | exact H1].
      * destruct H2 as [H2 | H2]; [|now apply Hlift].
        exists a. split; [left | exact H2].
Qed.

Lemma merge_from_length l : forall cur, (length (merge_from cur l) <= S (length l))%nat.
Proof.
  induction l as [|a l IH]; intros cur; simpl; [lia|].
  destruct (Qlt_bool _ _); [specialize (IH {| seg_start := seg_start cur;
                                             seg_end := total_seconds (end_ a) |})
                           | specialize (IH (new_segment a)); simpl]; lia.
Qed.

(** X8: the merger invents no time: every kept interval starts where some cue
    starts and ends where some cue ends, and there are never more kept
    intervals than cues. *)
Theorem kept_intervals_from_cue_bounds (subs : list Subtitle) :
  (length (ffmpeg_cut_select.parse_srt_segments subs) <= length subs)%nat /\
  forall s, s ∈ ffmpeg_cut_select.parse_srt_segments subs ->
    (exists x, x ∈ subs /\ seg_start s = total_seconds (start x)) /\
    (exists y, y ∈ subs /\ seg_end s = total_seconds (end_ y)).
Proof.
  rewrite parse_srt_segments_eq.
  pose proof (sort_by_start_perm subs) as Hp.
  destruct (sort_by_start subs) as [|first l].
  - split; [simpl; lia|]. intros s Hs. inversion Hs.
  - split.
    + rewrite (Permutation_length Hp). apply merge_from_length.
    + intros s Hs.
      assert (Hin : forall P : Subtitle -> Prop,
                P first \/ (exists x, x ∈ l /\ P x) -> exists x, x ∈ subs /\ P x).
      { intros P [HP | (x & Hx & HP)].
        - exists first. split; [rewrite Hp; left | exact HP].
        - exists x. split; [rewrite Hp; now right | exact HP]. }
      destruct (merge_from_bounds l (new_segment first) s Hs) as [H1 H2].
      cbn [new_segment seg_start seg_end] in H1, H2.
      split; [exact (Hin _ H1) | exact (Hin _ H2)].
Qed.


(** ** The padding tool: what changes and by how much *)

Lemma timedelta_of_seconds_nonneg (s : Q) :
  (0 <= s)%Q -> 0 <= timedelta_of_seconds s.
Proof.
  intros Hs. unfold timedelta_of_seconds, round_half_even.
  assert (Hf : 0 <= Qfloor (s * inject_Z 1000000)).
  { rewrite <- (Qfloor_Z 0). apply Qfloor_resp_le.
    change (inject_Z 0) with 0%Q. change (inject_Z 1000000) with 1000000%Q. lra. }
  destruct (Qlt_bool _ _); [exact Hf|].
  destruct (Qlt_bool _ _); [lia|].
  destruct (Z.even _); lia.
Qed.

Lemma pad_from_frame (pad : timedelta) (l : list Subtitle) :
  forall prev_end i y,
  srt_padding.pad_from pad prev_end l !! i = Some y ->
  exists x, l !! i = Some x /\ index y = index x /\ content y = content x.
Proof.
  induction l as [|s l IH]; intros prev_end i y Hy; [destruct i; discriminate|].
  cbn [srt_padding.pad_from] in Hy. destruct i as [|i]; simpl in Hy.
  - injection Hy as <-. exists s. repeat split.
  - exact (IH _ i y Hy).
Qed.

Lemma pad_from_length (pad : timedelta) (l : list Subtitle) :
  forall prev_end, length (srt_padding.pad_from pad prev_end l) = length l.
Proof.
  induction l as [|s l IH]; intros prev_end; [reflexivity|].
  cbn [srt_padding.pad_from]. simpl. f_equal. apply IH.
Qed.

Lemma pad_from_grows (pad : timedelta) (l : list Subtitle) :
  0 <= pad ->
  forall from prev_end,
  0 <= from ->
  srt_to_voice.consecutive from l ->
  (forall x, head l = Some x -> prev_end <= start x) ->
  forall i x y,
  l !! i = Some x ->
  srt_padding.pad_from pad prev_end l !! i = Some y ->
  start x - pad <= start y <= start x /\
  end_ x <= end_ y <= end_ x + pad.
Proof.
  intros Hpad. induction l as [|s l IH]; intros from prev_end Hfrom Hcons Hhead i x y Hx Hy;
    [destruct i; discriminate|].
  destruct Hcons as (Hlo & Hhi & Hcons).
  specialize (Hhead s eq_refl).
  cbn [srt_padding.pad_from] in Hy.
  assert (Hnext : end_ s <= match l with
                            | nx :: _ => start nx
                            | [] => end_ s + srt_padding.one_hour
                            end).
  { destruct l as [|nx l]; [unfold srt_padding.one_hour, of_seconds; lia|].
    destruct Hcons as (H & _). exact H. }
  destruct i as [|i]; simpl in Hx, Hy.
  - injection Hx as <-. injection Hy as <-. simpl. lia.
  - refine (IH (end_ s) _ _ Hcons _ i x y Hx Hy); [lia|].
    intros nx Hnx. destruct l as [|nx' l]; [discriminate|].
    simpl in Hnx. injection Hnx as <-. lia.
Qed.

(** X10: for a pad of zero or more, on cues in time order that do not overlap
    and do not start before zero, every padded cue contains its input cue
    and reaches out by at most the pad on either side. *)
Theorem pad_srt_widens_within_pad (subs : list Subtitle) (pad : Q) i x y :
  (0 <= pad)%Q ->
  srt_to_voice.consecutive 0 subs ->
  subs !! i = Some x ->
  srt_padding.pad_srt subs pad !! i = Some y ->
  start x - timedelta_of_seconds pad <= start y <= start x /\
  end_ x <= end_ y <= end_ x + timedelta_of_seconds pad.
Proof.
  intros Hpad Hcons Hx Hy. rewrite pad_srt_eq in Hy.
  apply (pad_from_grows (timedelta_of_seconds pad) subs
           (timedelta_of_seconds_nonneg pad Hpad) 0 0 (Z.le_refl 0) Hcons)
    with (i := i); auto.
  intros s Hs. destruct subs as [|s' subs]; [discriminate|].
  simpl in Hs. injection Hs as <-. destruct Hcons as (H & _). exact H.
Qed.

Lemma pad_srt_widens_witness :
  let x := cue 2 1500 2000 in
  let y := mkSubtitle 2 1400000 2100000 "" in
  start x - timedelta_of_seconds (1 # 10) <= start y <= start x /\
  end_ x <= end_ y <= end_ x + timedelta_of_seconds (1 # 10).
Proof.
  apply (pad_srt_widens_within_pad
           [cue 1 50 1000; cue 2 1500 2000; cue 3 2500 3000] (1 # 10) 1%nat).
  - vm_compute. congruence.
  - vm_compute. repeat split; congruence.
  - reflexivity.
  - vm_compute. reflexivity.
Defined.

(** X11: with a pad of zero the loop changes nothing in such a cue list:
    the list handed to [srt.compose] is the parsed list. *)
Theorem pad_srt_zero_is_identity (subs : list Subtitle) :
  srt_to_voice.consecutive 0 subs ->
  srt_padding.pad_srt subs 0 = subs.
Proof.
  intros Hcons. apply list_eq. intros i.
  assert (Hlen : length (srt_padding.pad_srt subs 0) = length subs)
    by (rewrite pad_srt_eq; apply pad_from_length).
  destruct (srt_padding.pad_srt subs 0 !! i) as [y|] eqn:Hy.
  - destruct (pad_from_frame (timedelta_of_seconds 0) subs 0 i y) as (x & Hx & Hi & Hc).
    { rewrite <- pad_srt_eq. exact Hy. }
    rewrite pad_srt_eq in Hy.
    assert (Hz : 0 <= timedelta_of_seconds 0) by (vm_compute; congruence).
    destruct (pad_from_grows (timedelta_of_seconds 0) subs Hz 0 0 (Z.le_refl 0) Hcons)
      with (i := i) (x := x) (y := y) as (Hs & He); auto.
    { intros s Hs. destruct subs as [|s' subs]; [discriminate|].
      simpl in Hs. injection Hs as <-. destruct Hcons as (H & _). exact H. }
    change (timedelta_of_seconds 0) with 0 in Hs, He.
    rewrite Hx. f_equal. destruct x, y; simpl in *. f_equal; try congruence; lia.
  - apply lookup_ge_None in Hy. rewrite Hlen in Hy.
    symmetry. apply lookup_ge_None. exact Hy.
Qed.

Lemma pad_srt_zero_is_identity_witness :
  srt_padding.pad_srt
    [mkSubtitle 1 50000 1000000 "one"; mkSubtitle 2 1500000 2000000 "two"] 0
  = [mkSubtitle 1 50000 1000000 "one"; mkSubtitle 2 1500000 2000000 "two"].
Proof.
  apply (pad_srt_zero_is_identity
           [mkSubtitle 1 50000 1000000 "one"; mkSubtitle 2 1500000 2000000 "two"]).
  vm_compute. repeat split; congruence.
Defined.

Lemma pad_from_last (pad : timedelta) (l : list Subtitle) :
  forall prev_end x,
  last l = Some x ->
  exists y, last (srt_padding.pad_from pad prev_end l) = Some y /\
            end_ y = Z.min (end_ x + pad) (end_ x + srt_padding.one_hour).
Proof.
  induction l as [|s l IH]; intros prev_end x Hx; [discriminate|].
  cbn [srt_padding.pad_from]. destruct l as [|s' l].
  - simpl in Hx. injection Hx as <-. eexists. split; [reflexivity|]. reflexivity.
  - change (last (s :: s' :: l)) with (last (s' :: l)) in Hx.
    destruct (IH ((end_ s + pad) `min` start s') x Hx) as (y & Hy & He).
    exists y. split; [|exact He].
    remember (s' :: l) as r eqn:Er.
    destruct (srt_padding.pad_from pad ((end_ s + pad) `min` start s') r) as [|a b] eqn:E.
    + discriminate.
    + rewrite <- Hy. reflexivity.
Qed.

(** X12: the last cue has no successor to stop at: its padded end is its end
    plus the pad, capped at one hour after its end. *)
Theorem pad_srt_last_end (subs : list Subtitle) (pad : Q) x :
  last subs = Some x ->
  exists y, last (srt_padding.pad_srt subs pad) = Some y /\
            end_ y = Z.min (end_ x + timedelta_of_seconds pad)
                           (end_ x + srt_padding.one_hour).
Proof. rewrite pad_srt_eq. apply pad_from_last. Qed.

Lemma pad_srt_last_end_witness :
  exists y, last (srt_padding.pad_srt [cue 1 50 1000; cue 2 1500 2000] 4000) = Some y /\
            end_ y = Z.min (end_ (cue 2 1500 2000) + timedelta_of_seconds 4000)
                           (end_ (cue 2 1500 2000) + srt_padding.one_hour).
Proof.
  apply (pad_srt_last_end [cue 1 50 1000; cue 2 1500 2000] 4000). reflexivity.
Defined.

(** ** The [select] expression *)

Lemma between_cases t lo hi :
  (between t lo hi = 1 /\ (lo <= t)%Q /\ (t <= hi)%Q) \/
  (between t lo hi = 0 /\ ~ ((lo <= t)%Q /\ (t <= hi)%Q)).
Proof.
  unfold between.
  destruct (Qle_bool lo t) eqn:E1; destruct (Qle_bool t hi) eqn:E2; simpl.
  - left. repeat split; now apply Qle_bool_iff.
  - right. split; [reflexivity|]. intros [_ H]. apply Qle_bool_iff in H. congruence.
  - right. split; [reflexivity|]. intros [H _]. apply Qle_bool_iff in H. congruence.
  - right. split; [reflexivity|]. intros [H _]. apply Qle_bool_iff in H. congruence.
Qed.

Lemma select_expr_nonneg segments t : 0 <= select_expr segments t.
Proof.
  induction segments as [|s l IH]; simpl; [lia|].
  destruct (between_cases t (seg_start s) (seg_end s)) as [[-> _] | [-> _]]; lia.
Qed.

Lemma selected_iff segments t :
  selected segments t = true <-> exists s, s ∈ segments /\ within t s.
Proof.
  unfold selected. rewrite negb_true_iff, Z.eqb_neq.
  induction segments as [|s l IH]; simpl.
  - split; [congruence|]. intros (s & Hs & _). inversion Hs.
  - pose proof (select_expr_nonneg l t) as Hl. fold (select_expr l t).
    destruct (between_cases t (seg_start s) (seg_end s)) as [[-> H] | [-> H]].
    + split; [|lia]. intros _. exists s. split; [left | exact H].
    + rewrite Z.add_0_l, IH. split.
      * intros (s' & Hs' & Hw). exists s'. split; [now right | exact Hw].
      * intros (s' & Hs' & Hw). apply elem_of_cons in Hs' as [-> | Hs'].
        -- contradiction.
        -- exists s'. now split.
Qed.

Lemma select_expr_before segments t :
  Forall (fun s => (t < seg_start s)%Q) segments -> select_expr segments t = 0.
Proof.
  induction 1 as [|s l Hs _ IH]; simpl; [reflexivity|].
  fold (select_expr l t). rewrite IH.
  destruct (between_cases t (seg_start s) (seg_end s)) as [[_ [H _]] | [-> _]];
    [lra | reflexivity].
Qed.

Lemma select_expr_disjoint segments t :
  StronglySorted before segments ->
  select_expr segments t = 0 \/ select_expr segments t = 1.
Proof.
  induction 1 as [|s l Hl IH Hs]; simpl; [now left|].
  fold (select_expr l t).
  destruct (between_cases t (seg_start s) (seg_end s)) as [[-> [_ H]] | [-> _]].
  - right. rewrite select_expr_before; [reflexivity|].
    eapply Forall_impl; [exact Hs|]. unfold before. intros s' Hs'. simpl in Hs'. lra.
  - rewrite Z.add_0_l. exact IH.
Qed.

(** X13: the [select] expression built from the kept intervals of
    well-formed cues is an indicator: at every time stamp its value is 0 or
    1 (no two terms are 1 together), and a frame passes exactly when its
    time stamp lies in a kept interval, ends included. *)
Theorem select_expr_is_indicator (subs : list Subtitle) (t : Q) :
  Forall well_formed subs ->
  let segments := ffmpeg_cut_select.parse_srt_segments subs in
  (select_expr segments t = 0 \/ select_expr segments t = 1) /\
  (selected segments t = true <-> exists s, s ∈ segments /\ within t s).
Proof.
  intros Hwf segments. split; [|apply selected_iff].
  apply select_expr_disjoint. subst segments. rewrite parse_srt_segments_eq.
  pose proof (sort_by_start_sorted subs) as Hs.
  apply sort_by_start_Forall in Hwf.
  destruct (sort_by_start subs) as [|x l]; [constructor|].
  apply Forall_cons in Hwf as [[_ Hx] Hwf].
  apply StronglySorted_inv in Hs as [Hs Hxl].
  apply total_seconds_lt in Hx.
  apply (merge_from_ordered l (new_segment x) Hx Hwf Hs).
  eapply Forall_impl; [exact Hxl|]. unfold by_start; simpl.
  intros y Hy. now apply total_seconds_le.
Qed.

Lemma select_expr_is_indicator_witness :
  let segments :=
    ffmpeg_cut_select.parse_srt_segments [cue 1 0 2000; cue 2 2300 4000; cue 3 10000 12000] in
  (select_expr segments 3 = 0 \/ select_expr segments 3 = 1) /\
  (selected segments 3 = true <-> exists s, s ∈ segments /\ within 3 s).
Proof.
  apply (select_expr_is_indicator [cue 1 0 2000; cue 2 2300 4000; cue 3 10000 12000] 3).
  repeat constructor; vm_compute; congruence.
Defined.

(** X14: when the cue ends do not go back in start order, every frame
    whose time stamp lies within a cue passes the [select] filter. *)
Theorem cue_frames_are_selected (subs : list Subtitle) (x : Subtitle) (t : Q) :
  StronglySorted by_end (sort_by_start subs) ->
  x ∈ subs ->
  (total_seconds (start x) <= t)%Q -> (t <= total_seconds (end_ x))%Q ->
  selected (ffmpeg_cut_select.parse_srt_segments subs) t = true.
Proof.
  intros He Hx Hlo Hhi. apply selected_iff.
  destruct (parse_srt_segments_covers subs x He Hx) as (s & Hs & H1 & H2).
  exists s. split; [exact Hs|]. split; lra.
Qed.

Lemma cue_frames_are_selected_witness :
  selected (ffmpeg_cut_select.parse_srt_segments
              [cue 1 0 2000; cue 2 2300 4000; cue 3 10000 12000]) (5 # 2) = true.
Proof.
  apply (cue_frames_are_selected
           [cue 1 0 2000; cue 2 2300 4000; cue 3 10000 12000] (cue 2 2300 4000)).
  - repeat constructor; vm_compute; congruence.
  - right. left.
  - vm_compute. congruence.
  - vm_compute. congruence.
Defined.

(** ** The voice track: when a cue is fitted and how long the track is *)

Lemma atempo_filters_positive fuel speed l :
  srt_to_voice.atempo_filters fuel speed = Some l -> (0 < speed)%Q.
Proof.
  intros H. destruct (Qlt_le_dec 0 speed) as [Hp | Hn]; [exact Hp|].
  rewrite atempo_filters_diverges in H by exact Hn. discriminate.
Qed.

(** X15: the two loops of [ffmpeg_speedup] come to an end exactly for a
    speed above zero. *)
Theorem atempo_filters_returns_iff (speed : Q) :
  (exists fuel l, srt_to_voice.atempo_filters fuel speed = Some l) <-> (0 < speed)%Q.
Proof.
  split.
  - intros (fuel & l & H). exact (atempo_filters_positive fuel speed l H).
  - intros Hp.
    destruct (decompose_spec speed Hp)
      as (n & k & a & remain & _ & _ & _ & _ & _ & Hrun & _).
    exists n. eexists. unfold srt_to_voice.atempo_filters.
    rewrite (Hrun n (Nat.le_refl n)). reflexivity.
Qed.

Lemma Qdiv_inject_nonpos (a b : Z) :
  (a <= 0 /\ 0 < b) \/ (0 <= a /\ b < 0) ->
  (inject_Z a / inject_Z b <= 0)%Q.
Proof.
  intros H. destruct b as [|p|p]; [lia| |];
    unfold Qdiv, Qinv, Qmult, Qle, inject_Z; simpl; nia.
Qed.

(** When step 3 takes the stretching branch and returns, the target is
    above zero and something is left of the speech after trimming. *)
Lemma fit_stretch_done ffmpeg fuel seg target_len out :
  target_len < srt_to_voice.len seg ->
  srt_to_voice.fit ffmpeg fuel seg target_len = srt_to_voice.Done out ->
  0 < target_len /\ 0 < srt_to_voice.len (srt_to_voice.trim_silence seg) /\
  exists filters,
    out = srt_to_voice.slice (ffmpeg (srt_to_voice.trim_silence seg) filters) 0 target_len.
Proof.
  intros Hlt H. unfold srt_to_voice.fit in H.
  assert (E : (target_len <? srt_to_voice.len seg) = true) by (apply Z.ltb_lt; lia).
  rewrite E in H. unfold srt_to_voice.true_div in H.
  destruct (target_len =? 0) eqn:E0; [discriminate|].
  apply Z.eqb_neq in E0.
  unfold mbind, srt_to_voice.outcome_bind, srt_to_voice.ffmpeg_speedup in H.
  destruct (srt_to_voice.atempo_filters fuel _) as [filters|] eqn:Ef; [|discriminate].
  apply atempo_filters_positive in Ef.
  pose proof (len_nonneg (srt_to_voice.trim_silence seg)) as Hn.
  assert (Hpos : 0 < target_len /\ 0 < srt_to_voice.len (srt_to_voice.trim_silence seg)).
  { destruct (Z_lt_le_dec 0 target_len) as [Ht | Ht].
    - destruct (Z_lt_le_dec 0 (srt_to_voice.len (srt_to_voice.trim_silence seg)))
        as [Hl | Hl]; [lia|].
      exfalso. apply (Qlt_not_le _ _ Ef). apply Qdiv_inject_nonpos. left. lia.
    - exfalso. apply (Qlt_not_le _ _ Ef). apply Qdiv_inject_nonpos. right. lia. }
  destruct Hpos as [Ht Hl]. repeat split; [exact Ht | exact Hl |].
  exists filters. injection H as <-. reflexivity.
Qed.


Lemma fit_fails ffmpeg fuel seg target_len :
  target_len < srt_to_voice.len seg ->
  target_len <= 0 \/ srt_to_voice.len (srt_to_voice.trim_silence seg) = 0 ->
  srt_to_voice.fit ffmpeg fuel seg target_len
  = if target_len =? 0 then srt_to_voice.ZeroDivisionError else srt_to_voice.OutOfFuel.
Proof.
  intros Hlt Hbad.
  destruct (srt_to_voice.fit ffmpeg fuel seg target_len) as [out| |] eqn:E.
  - destruct (fit_stretch_done ffmpeg fuel seg target_len out Hlt E) as (H1 & H2 & _). lia.
  - unfold srt_to_voice.fit in E.
    destruct (target_len <? srt_to_voice.len seg); [|discriminate].
    unfold srt_to_voice.true_div in E.
    destruct (target_len =? 0); [reflexivity|].
    unfold mbind, srt_to_voice.outcome_bind, srt_to_voice.ffmpeg_speedup in E.
    destruct (srt_to_voice.atempo_filters fuel _); discriminate.
  - unfold srt_to_voice.fit in E.
    destruct (target_len <? srt_to_voice.len seg); [|discriminate].
    unfold srt_to_voice.true_div in E.
    destruct (target_len =? 0); [discriminate | reflexivity].
Qed.


(** X17: a cue that ends a millisecond or more before it starts is never
    voiced: the run does not leave the loops of [ffmpeg_speedup], whatever
    the speech.  A cue shorter than a millisecond either way, with speech
    of a millisecond or more, raises [ZeroDivisionError]. *)
Theorem degenerate_cue_outcome
    (synthesize : string -> srt_to_voice.AudioSegment)
    (ffmpeg : srt_to_voice.AudioSegment -> list Q -> srt_to_voice.AudioSegment)
    (fuel : nat) (st : srt_to_voice.voice_state) (sub : Subtitle) :
  (end_ sub - start sub <= - 1000 ->
   srt_to_voice.voice_step synthesize ffmpeg fuel st sub = srt_to_voice.OutOfFuel) /\
  (- 1000 < end_ sub - start sub < 1000 ->
   0 < srt_to_voice.len (synthesize (srt_to_voice.replace_newlines (content sub))) ->
   srt_to_voice.voice_step synthesize ffmpeg fuel st sub = srt_to_voice.ZeroDivisionError).
Proof.
  split.
  - intros Hd. unfold srt_to_voice.voice_step.
    pose proof (len_nonneg (synthesize (srt_to_voice.replace_newlines (content sub)))) as Hl.
    assert (Ht : srt_to_voice.get_duration_ms (end_ sub - start sub) <= -1).
    { rewrite get_duration_ms_quot.
      rewrite <- (Z.opp_involutive (end_ sub - start sub)), Z.quot_opp_l by lia.
      assert (1 <= Z.quot (- (end_ sub - start sub)) 1000); [|lia].
      apply Z.quot_le_lower_bound; lia. }
    rewrite fit_fails by lia.
    destruct (srt_to_voice.get_duration_ms (end_ sub - start sub) =? 0) eqn:E0;
      [apply Z.eqb_eq in E0; lia | reflexivity].
  - intros Hd Hl. unfold srt_to_voice.voice_step.
    assert (Ht : srt_to_voice.get_duration_ms (end_ sub - start sub) = 0).
    { rewrite get_duration_ms_quot. apply Z.quot_small_iff; lia. }
    rewrite Ht. rewrite fit_fails by lia. reflexivity.
Qed.





(** ** The stretch chain is as short as it can be *)

Lemma halving_run fuel : forall remain filters remain' filters',
  srt_to_voice.halving fuel remain filters = Some (remain', filters') ->
  exists k,
    filters' = filters ++ replicate k 2%Q /\
    (remain == remain' * srt_to_voice.product (replicate k 2))%Q /\
    (remain' <= 2)%Q /\
    ((0 < k)%nat -> (1 < remain')%Q) /\
    (k = 0%nat -> remain' = remain).
Proof.
  induction fuel as [|fuel IH]; intros remain filters remain' filters' H; [discriminate|].
  cbn [srt_to_voice.halving] in H.
  destruct (Qlt_bool 2 remain) eqn:E.
  - apply Qlt_bool_iff in E.
    destruct (IH _ _ _ _ H) as (k & Hf & Hr & Hle & Hpos & Hz).
    exists (S k). repeat split.
    + rewrite Hf, <- app_assoc. reflexivity.
    + simpl. fold (srt_to_voice.product (replicate k 2%Q)).
      assert (Hr' : (remain == 2 * (remain / 2))%Q) by field.
      rewrite Hr' at 1. rewrite Hr. ring.
    + exact Hle.
    + intros _. destruct k as [|k]; [|apply Hpos; lia].
      rewrite (Hz eq_refl). apply Qlt_shift_div_l; lra.
    + discriminate.
  - injection H as <- <-. exists 0%nat. repeat split.
    + now rewrite app_nil_r.
    + simpl. ring.
    + destruct (Qlt_le_dec 2 remain) as [Hlt | Hle]; [|exact Hle].
      apply Qlt_bool_iff in Hlt. congruence.
    + lia.
Qed.

Lemma doubling_run fuel : forall remain filters remain' filters',
  srt_to_voice.doubling fuel remain filters = Some (remain', filters') ->
  exists k,
    filters' = filters ++ replicate k (1 # 2)%Q /\
    (remain == remain' * srt_to_voice.product (replicate k (1 # 2)))%Q /\
    (1 # 2 <= remain')%Q /\
    ((0 < k)%nat -> (remain' < 1)%Q) /\
    (k = 0%nat -> remain' = remain) /\
    ((1 # 2 <= remain)%Q -> k = 0%nat).
Proof.
  induction fuel as [|fuel IH]; intros remain filters remain' filters' H; [discriminate|].
  cbn [srt_to_voice.doubling] in H.
  destruct (Qlt_bool remain (1 # 2)) eqn:E.
  - apply Qlt_bool_iff in E.
    destruct (IH _ _ _ _ H) as (k & Hf & Hr & Hle & Hpos & Hz & _).
    exists (S k). repeat split.
    + rewrite Hf, <- app_assoc. reflexivity.
    + simpl. fold (srt_to_voice.product (replicate k (1 # 2)%Q)).
      assert (Hr' : (remain == (1 # 2) * (remain / (1 # 2)))%Q) by field.
      rewrite Hr' at 1. rewrite Hr. ring.
    + exact Hle.
    + intros _. destruct k as [|k]; [|apply Hpos; lia].
      rewrite (Hz eq_refl). apply Qlt_shift_div_r; lra.
    + discriminate.
    + intros Hge. lra.
  - injection H as <- <-. exists 0%nat. repeat split.
    + now rewrite app_nil_r.
    + simpl. ring.
    + destruct (Qlt_le_dec remain (1 # 2)) as [Hlt | Hle]; [|exact Hle].
      apply Qlt_bool_iff in Hlt. congruence.
    + lia.
Qed.

Lemma product_in_range l :
  Forall srt_to_voice.in_range l ->
  (srt_to_voice.product (replicate (length l) (1 # 2)) <= srt_to_voice.product l)%Q /\
  (srt_to_voice.product l <= srt_to_voice.product (replicate (length l) 2))%Q.
Proof.
  induction 1 as [|x l [Hlo Hhi] _ [IH1 IH2]]; simpl; [split; apply Qle_refl|].
  fold (srt_to_voice.product l).
  fold (srt_to_voice.product (replicate (length l) (1 # 2)%Q)).
  fold (srt_to_voice.product (replicate (length l) 2%Q)).
  pose proof (product_replicate_pos (length l) (1 # 2) ltac:(reflexivity)) as Hp.
  split.
  - apply Qle_trans with ((1 # 2) * srt_to_voice.product l)%Q.
    + apply Qmult_le_l; [reflexivity | exact IH1].
    + apply Qmult_le_compat_r; [exact Hlo | lra].
  - apply Qle_trans with (2 * srt_to_voice.product l)%Q.
    + apply Qmult_le_compat_r; [exact Hhi | lra].
    + apply Qmult_le_l; [reflexivity | exact IH2].
Qed.

Lemma pow2_mono m k :
  (m <= k)%nat ->
  (srt_to_voice.product (replicate m 2) <= srt_to_voice.product (replicate k 2))%Q.
Proof.
  induction 1 as [|k _ IH]; [apply Qle_refl|].
  simpl. fold (srt_to_voice.product (replicate k 2%Q)).
  pose proof (product_replicate_pos k 2 ltac:(reflexivity)) as Hp. lra.
Qed.

Lemma half_pow_mono m k :
  (m <= k)%nat ->
  (srt_to_voice.product (replicate k (1 # 2)) <= srt_to_voice.product (replicate m (1 # 2)))%Q.
Proof.
  induction 1 as [|k _ IH]; [apply Qle_refl|].
  simpl. fold (srt_to_voice.product (replicate k (1 # 2)%Q)).
  pose proof (product_replicate_pos k (1 # 2) ltac:(reflexivity)) as Hp. lra.
Qed.

(** X19: no chain of [atempo] stages, each within 0.5 to 2, whose factors
    multiply to the ratio is shorter than the one [ffmpeg_speedup] builds. *)
Theorem stretch_chain_is_shortest (fuel : nat) (r : Q) (l l' : list Q) :
  srt_to_voice.stages fuel r = Some l ->
  Forall srt_to_voice.in_range l' ->
  l' <> [] ->
  (srt_to_voice.product l' == r)%Q ->
  (length l <= length l')%nat.
Proof.
  intros Hl Hr Hne Hp. unfold srt_to_voice.stages, srt_to_voice.decompose in Hl.
  destruct (srt_to_voice.halving fuel r []) as [[r1 f1]|] eqn:E1; [|discriminate].
  destruct (srt_to_voice.doubling fuel r1 f1) as [[r2 f2]|] eqn:E2; [|discriminate].
  injection Hl as <-.
  destruct (halving_run _ _ _ _ _ E1) as (k1 & -> & H1 & H1le & H1pos & H1z).
  destruct (doubling_run _ _ _ _ _ E2) as (k2 & -> & H2 & H2le & H2pos & H2z & H2k).
  rewrite !length_app, !length_replicate. simpl.
  destruct (product_in_range l' Hr) as [Lo Hi].
  destruct l' as [|x l']; [congruence|]. simpl length in *.
  destruct (Nat.le_gt_cases (k1 + k2) (length l')) as [Hok | Hshort]; [lia|].
  exfalso.
  destruct k1 as [|k1].
  - specialize (H1z eq_refl). subst r1.
    destruct k2 as [|k2]; [lia|].
    specialize (H2pos ltac:(lia)).
    pose proof (half_pow_mono (S (length l')) (S k2) ltac:(lia)) as Hm.
    pose proof (product_replicate_pos (S k2) (1 # 2) ltac:(reflexivity)) as Hpp.
    assert (Hlt : (r2 * srt_to_voice.product (replicate (S k2) (1 # 2))
                   < srt_to_voice.product (replicate (S k2) (1 # 2)))%Q).
    { rewrite <- (Qmult_1_l (srt_to_voice.product (replicate (S k2) (1 # 2)))) at 2.
      apply Qmult_lt_compat_r; assumption. }
    rewrite <- H2, <- Hp in Hlt.
    apply (Qlt_not_le _ _ Hlt). exact (Qle_trans _ _ _ Hm Lo).
  - specialize (H1pos ltac:(lia)).
    assert (k2 = 0%nat) by (apply H2k; lra). subst k2.
    specialize (H2z eq_refl). subst r2.
    pose proof (pow2_mono (S (length l')) (S k1) ltac:(lia)) as Hm.
    pose proof (product_replicate_pos (S k1) 2 ltac:(reflexivity)) as Hpp.
    assert (Hlt : (srt_to_voice.product (replicate (S k1) 2%Q)
                   < r1 * srt_to_voice.product (replicate (S k1) 2%Q))%Q).
    { rewrite <- (Qmult_1_l (srt_to_voice.product (replicate (S k1) 2%Q))) at 1.
      apply Qmult_lt_compat_r; assumption. }
    rewrite <- H1, <- Hp in Hlt.
    apply (Qlt_not_le _ _ Hlt). exact (Qle_trans _ _ _ Hi Hm).
Qed.

(** The ratio 5: [2, 2, 1.25] against the three stages [2, 2, 1.25] in
    another order. *)
Lemma stretch_chain_is_shortest_witness :
  (length [2; 2; 5 # 4]%Q <= length [5 # 4; 2; 2]%Q)%nat.
Proof.
  apply (stretch_chain_is_shortest 5 5 [2; 2; 5 # 4]%Q [5 # 4; 2; 2]%Q).
  - vm_compute. reflexivity.
  - repeat constructor; vm_compute; congruence.
  - discriminate.
  - vm_compute. reflexivity.
Defined.

(** ** The default output path of the padding tool *)

Lemma prefix_occurs old s :
  String.prefix old s = true <-> exists b, s = String.append old b.
Proof.
  revert s. induction old as [|c old IH]; intros s.
  - split; [intros _; now exists s | intros _; destruct s; reflexivity].
  - destruct s as [|d s]; [split; [discriminate | intros (b & H); discriminate]|].
    cbn [String.prefix String.append].
    destruct (Ascii.ascii_dec c d) as [-> | Hne].
    + rewrite IH. split; intros (b & H); exists b; [now rewrite H | now injection H].
    + split; [discriminate|]. intros (b & H). injection H as H _. congruence.
Qed.

(** ["a.srt"] and ["x.srt.srt"] as Python rewrites them; ["A.SRT"] is left
    as it is. *)
Lemma str_replace_examples :
  str_replace "a.srt" ".srt" "_pad.srt" = "a_pad.srt"%string /\
  str_replace "x.srt.srt" ".srt" "_pad.srt" = "x_pad.srt_pad.srt"%string /\
  str_replace "A.SRT" ".srt" "_pad.srt" = "A.SRT"%string.
Proof. repeat split. Qed.

Lemma str_replace_fixed s :
  str_replace s ".srt" "_pad.srt" = s <-> ~ occurs ".srt" s.
Proof.
  unfold str_replace. induction s as [|c s IH].
  - simpl. split; [|reflexivity]. intros _ (a & b & H).
    destruct a; discriminate.
  - cbn [replace_from].
    destruct (String.prefix ".srt" (String c s)) eqn:E.
    + apply prefix_occurs in E. destruct E as (b & E). split.
      * intros H. rewrite E in H. simpl in H. discriminate.
      * intros H. exfalso. apply H. exists EmptyString, b. exact E.
    + assert (Hno : ~ exists b, String c s = String.append ".srt" b).
      { intros H. apply prefix_occurs in H. congruence. }
      split.
      * intros H. injection H as H. apply IH in H.
        intros (a & b & Hab). destruct a as [|d a].
        -- apply Hno. exists b. exact Hab.
        -- apply H. exists a, b. simpl in Hab. now injection Hab.
      * intros H. f_equal. apply IH. intros (a & b & Hab). apply H.
        exists (String c a), b. simpl. now rewrite Hab.
Qed.

(** X20: without [-o] and without [--inplace], the padded subtitles are
    written over the input file exactly when its path does not contain
    [.srt] (in this spelling). *)
Theorem default_output_is_input_iff (srt : string) :
  main_output srt None false = srt <-> ~ occurs ".srt" srt.
Proof. apply str_replace_fixed. Qed.


(** ** When the input order matters to the merger *)

Lemma merge_from_times l : forall l' cur,
  map times l = map times l' -> merge_from cur l = merge_from cur l'.
Proof.
  induction l as [|x l IH]; intros [|x' l'] cur H; try discriminate; [reflexivity|].
  simpl in H. injection H as Hs He Hl.
  cbn [merge_from]. unfold new_segment. rewrite Hs, He.
  destruct (Qlt_bool _ _); [|f_equal]; now apply IH.
Qed.

Lemma sorted_times l :
  StronglySorted by_start l ->
  StronglySorted (fun u v : timedelta * timedelta => fst u <= fst v) (map times l).
Proof.
  induction 1 as [|x l _ IH Hx]; simpl; constructor; [exact IH|].
  apply Forall_fmap. eapply Forall_impl; [exact Hx|]. intros y Hy. exact Hy.
Qed.

Lemma sorted_perm_unique (L : list (timedelta * timedelta)) : forall L',
  StronglySorted (fun u v => fst u <= fst v) L ->
  StronglySorted (fun u v => fst u <= fst v) L' ->
  Permutation L L' ->
  (forall u v, u ∈ L -> v ∈ L -> fst u = fst v -> u = v) ->
  L = L'.
Proof.
  induction L as [|u L IH]; intros L' HL HL' Hp Hties.
  - apply Permutation_nil in Hp. now subst.
  - destruct L' as [|v L'].
    { symmetry in Hp. apply Permutation_nil in Hp. discriminate. }
    apply StronglySorted_inv in HL as [HL Hu].
    apply StronglySorted_inv in HL' as [HL' Hv].
    rewrite Forall_forall in Hu, Hv.
    assert (Huv : u = v).
    { assert (Hvin : v ∈ u :: L) by (rewrite Hp; left).
      assert (Huin : u ∈ v :: L') by (rewrite <- Hp; left).
      apply Hties; [left | exact Hvin |].
      apply elem_of_cons in Hvin as [-> | Hvin]; [reflexivity|].
      apply elem_of_cons in Huin as [-> | Huin]; [reflexivity|].
      apply Z.le_antisymm; [exact (Hu v Hvin) | exact (Hv u Huin)]. }
    subst v. f_equal. apply IH; auto.
    + exact (Permutation_cons_inv Hp).
    + intros a b Ha Hb. apply Hties; now right.
Qed.

(** X22: the kept intervals do not depend on the order of the cues in the
    file when cues that start together also end together. *)
Theorem merge_order_invariant_unless_ties (a b : list Subtitle) :
  Permutation a b ->
  (forall x y, x ∈ a -> y ∈ a -> start x = start y -> end_ x = end_ y) ->
  ffmpeg_cut_select.parse_srt_segments a = ffmpeg_cut_select.parse_srt_segments b.
Proof.
  intros Hp Hties. rewrite !parse_srt_segments_eq.
  assert (E : map times (sort_by_start a) = map times (sort_by_start b)).
  { apply sorted_perm_unique.
    - apply sorted_times, sort_by_start_sorted.
    - apply sorted_times, sort_by_start_sorted.
    - apply Permutation_map.
      rewrite <- (sort_by_start_perm a), <- (sort_by_start_perm b). exact Hp.
    - intros u v Hu Hv Huv.
      apply list_elem_of_fmap in Hu as (x & -> & Hx).
      apply list_elem_of_fmap in Hv as (y & -> & Hy).
      rewrite <- (sort_by_start_perm a) in Hx, Hy.
      unfold times in *. simpl in Huv. f_equal; [exact Huv|].
      now apply Hties. }
  destruct (sort_by_start a) as [|x l]; destruct (sort_by_start b) as [|y l'];
    try discriminate; [reflexivity|].
  simpl in E. injection E as Hs He Hl.
  unfold new_segment. rewrite Hs, He. now apply merge_from_times.
Qed.

(** Two cues from 0 to 2 s with different numbers and a third cue, in two
    orders. *)
Lemma merge_order_invariant_witness :
  ffmpeg_cut_select.parse_srt_segments [cue 1 0 2000; cue 2 0 2000; cue 3 5000 6000]
  = ffmpeg_cut_select.parse_srt_segments [cue 3 5000 6000; cue 2 0 2000; cue 1 0 2000].
Proof.
  apply (merge_order_invariant_unless_ties
           [cue 1 0 2000; cue 2 0 2000; cue 3 5000 6000]
           [cue 3 5000 6000; cue 2 0 2000; cue 1 0 2000]).
  - exact (Permutation_rev [cue 1 0 2000; cue 2 0 2000; cue 3 5000 6000]).
  - intros x y Hx Hy Hxy. rewrite !elem_of_cons in Hx, Hy.
    destruct Hx as [-> | [-> | [-> | Hx]]]; [| | |inversion Hx];
      (destruct Hy as [-> | [-> | [-> | Hy]]]; [| | |inversion Hy]);
      try reflexivity; vm_compute in Hxy; discriminate.
Defined.
